(** * Board state of the scrabble solver

    A shallow embedding of [board/board.py] and of the search driver of
    [main.py].  Python integers are unbounded, so coordinates are [Z]; a
    letter is a Python string, so it is a [string]; the board dictionary
    (a [defaultdict] whose default factory returns [None]) is a finite map
    from positions to optional tiles.  Exceptions are values of [error];
    functions that can raise return a [result]. *)

From stdpp Require Import gmap strings list fin_maps sorting.
From Stdlib Require Import ZArith Lia.

Local Open Scope Z_scope.

(** ** Geometry *)

Definition Position : Type := Z * Z.

Definition px (p : Position) : Z := p.1.
Definition py (p : Position) : Z := p.2.

(** [Position.extend] *)
Definition extend (p : Position) (scalar : Z) : Position :=
  (px p * scalar, py p * scalar).

(** The two direction singletons.  [dvec] is the tuple a direction holds. *)
Inductive Direction := DOWN | ACROSS.

Definition dvec (d : Direction) : Position :=
  match d with
  | DOWN => (0, 1)
  | ACROSS => (1, 0)
  end.

Definition orthogonal (d : Direction) : Direction :=
  match d with
  | DOWN => ACROSS
  | ACROSS => DOWN
  end.

Definition opposite (d : Direction) : Position :=
  match d with
  | DOWN => (0, -1)
  | ACROSS => (-1, 0)
  end.

#[global] Instance Direction_eq_dec : EqDecision Direction.
Proof. solve_decision. Defined.

(** [is_direction d] is [d in (DOWN, ACROSS)], a comparison of tuples. *)
Definition is_direction (d : Position) : bool :=
  bool_decide (d = dvec DOWN) || bool_decide (d = dvec ACROSS).

(** Exceptions of the program.  A [ValueError] carries its message and the
    tiles formatted into it.  A [KeyError] carries the missing key: a
    position for the board ([KeyError]), an integer for the hand
    ([KeyErrorInt]). *)
Inductive error :=
| ValueError (msg : string) (args : list (Position * string))
| KeyError (key : Position)
| KeyErrorInt (key : Z)
| AttributeError
| TypeError
| IndexError.

(** Outcome of a call: a value, a raised exception, or the recursion budget
    of the model ran out. *)
Inductive result (A : Type) :=
| Ok (a : A)
| Raise (e : error)
| OutOfFuel.
Arguments Ok {A} a.
Arguments Raise {A} e.
Arguments OutOfFuel {A}.

Definition bind {A B} (r : result A) (k : A -> result B) : result B :=
  match r with
  | Ok a => k a
  | Raise e => Raise e
  | OutOfFuel => OutOfFuel
  end.

Notation "x <- r ;; k" := (bind r (fun x => k))
  (at level 100, r at next level, right associativity).

Definition make_direction (d : Position) : result Direction :=
  if bool_decide (d = (0, 1)) then Ok DOWN
  else if bool_decide (d = (1, 0)) then Ok ACROSS
  else Raise (ValueError "passed tuple is not a direction" []).

(** ** Tiles *)

Record BoardTile := mkTile { pos : Position; letter : string }.

#[global] Instance BoardTile_eq_dec : EqDecision BoardTile.
Proof. solve_decision. Defined.

Definition show (t : BoardTile) : Position * string := (pos t, letter t).

(** [BoardTile(pos, letter)]: the assertion lets the empty string through. *)
Definition BoardTile_init (p : Position) (l : string) : option BoardTile :=
  if decide (String.length l ≤ 1)%nat then Some (mkTile p l) else None.

Definition diff_pos (p1 p2 : Position) : Position :=
  (p1.1 - p2.1, p1.2 - p2.2).

Definition step (p d : Position) : Position := (p.1 + d.1, p.2 + d.2).

(** The placeholder letter. *)
Definition blank : string := "_".

(** ** The board *)

Record BoardState := mkBoard {
  height : Z;
  width : Z;
  board : gmap Position (option BoardTile)
}.

(** [BoardState(h, w)] *)
Definition BoardState_init (h w : Z) : BoardState := mkBoard h w ∅.

Definition set_board (b : BoardState) (m : gmap Position (option BoardTile))
  : BoardState := mkBoard (height b) (width b) m.

(** [pos in self] *)
Definition contains (b : BoardState) (p : Position) : bool :=
  (0 <=? p.1) && (p.1 <=? width b) && (0 <=? p.2) && (p.2 <=? height b).

(** [pos in self.board]: the key is present, whatever it maps to. *)
Definition occupied (b : BoardState) (p : Position) : bool :=
  bool_decide (is_Some (board b !! p)).

(** [get_tile]: indexing a [defaultdict] with a missing key stores the
    default under that key before returning it. *)
Definition get_tile (b : BoardState) (p : Position)
  : BoardState * option BoardTile :=
  match board b !! p with
  | Some v => (b, v)
  | None => (set_board b (<[p := None]> (board b)), None)
  end.

(** [manually_delete_tile]: [del] of a missing key raises [KeyError]. *)
Definition manually_delete_tile (b : BoardState) (p : Position)
  : BoardState * result unit :=
  match board b !! p with
  | Some _ => (set_board b (delete p (board b)), Ok tt)
  | None => (b, Raise (KeyError p))
  end.

Definition manually_put_tile (b : BoardState) (t : BoardTile)
  : BoardState * result unit :=
  if contains b (pos t)
  then (set_board b (<[pos t := Some t]> (board b)), Ok tt)
  else (b, Raise (ValueError "invalid tile position" [])).

(** [put_word]: the loop over the tiles, threading the board. *)
Fixpoint put_word (b : BoardState) (word : list BoardTile)
  : BoardState * result unit :=
  match word with
  | [] => (b, Ok tt)
  | tile :: rest =>
      match board b !! pos tile with
      | Some (Some existing) =>
          if decide (letter tile = letter existing)
          then put_word b rest
          else (b, Raise (ValueError "tile letter does not match board letter"
                            [show existing; show tile]))
      | Some None => (b, Raise AttributeError)
      | None =>
          match manually_put_tile b tile with
          | (b', Ok _) => put_word b' rest
          | (b', r) => (b', r)
          end
      end
  end.

(** ** Words *)

(** [xrange(lo, hi)] *)
Definition xrange (lo hi : Z) : list Z := seqZ lo (hi - lo).

(** [sliding_window(lst, width)] *)
Definition sliding_window {A} (lst : list A) (w : nat) : list (list A) :=
  (fun i => take w (drop i lst)) <$> seq 0 (length lst + 1 - w).

(** [sorted(lst, key=...)]: a stable sort on an integer key. *)
Fixpoint insert_by {A} (key : A -> Z) (x : A) (l : list A) : list A :=
  match l with
  | [] => [x]
  | y :: l' => if key x <=? key y then x :: l else y :: insert_by key x l'
  end.

Definition sorted_by {A} (key : A -> Z) (l : list A) : list A :=
  foldr (insert_by key) [] l.

(** [''.join(...)] *)
Definition join (ls : list string) : string := foldr String.app EmptyString ls.

Definition letters (l : list BoardTile) : list string := letter <$> l.

(** [TileList.get_pattern]: the empty string is the only falsy letter. *)
Definition get_pattern (l : list BoardTile) : option string :=
  if existsb (fun t => negb (bool_decide (letter t = EmptyString))) l
  then Some (join (letters l))
  else None.

(** A [Word] object: the list it extends and its [direction] attribute. *)
Record Word := mkWord { tiles : list BoardTile; direction : option Direction }.

(** [Word.__validate_direction]: the loop over the windows, threading
    [self.direction]; the flag is the value returned. *)
Fixpoint validate_direction (windows : list (list BoardTile))
    (dir : option Direction) : result (bool * option Direction) :=
  match windows with
  | [] => Ok (true, dir)
  | [c; n] :: rest =>
      let diff := diff_pos (pos n) (pos c) in
      match dir with
      | None =>
          if is_direction diff
          then d <- make_direction diff ;; validate_direction rest (Some d)
          else Ok (false, dir)
      | Some d =>
          if bool_decide (diff = dvec d)
          then validate_direction rest dir
          else Ok (false, dir)
      end
  | _ :: _ => Raise (ValueError "need more than 1 value to unpack" [])
  end.

(** [Word(lst)] *)
Definition Word_init (lst : list BoardTile) : result Word :=
  if decide (length lst < 2)%nat
  then Raise (ValueError "invalid word: no single-letter words" [])
  else
    r <- validate_direction (sliding_window lst 2) None ;;
    if r.1 then Ok (mkWord lst r.2)
    else Raise (ValueError "invalid word" []).

(** [make_word(word, pos, direction)]: one tile per character of [word]. *)
Fixpoint make_word_tiles (word : string) (cur : Position) (d : Direction)
  : list BoardTile :=
  match word with
  | EmptyString => []
  | String c rest =>
      mkTile cur (String c EmptyString)
      :: make_word_tiles rest (step cur (dvec d)) d
  end.

Definition make_word (word : string) (p : Position) (d : Direction)
  : result Word := Word_init (make_word_tiles word p d).

(** ** Intersecting words *)

(** [self.board[p]] for a key that is present. *)
Definition board_at (b : BoardState) (p : Position) : option BoardTile :=
  default None (board b !! p).

(** The [while True] loop of [__get_intersecting_word_for_pos]: the values
    appended while walking from [cur] in steps of [d]. *)
Fixpoint fan (fuel : nat) (b : BoardState) (d cur : Position)
  : result (list (option BoardTile)) :=
  match fuel with
  | O => OutOfFuel
  | S fuel' =>
      let cur' := step cur d in
      if negb (contains b cur') || negb (occupied b cur') then Ok []
      else rest <- fan fuel' b d cur' ;; Ok (board_at b cur' :: rest)
  end.

(** Reading [t.pos] of every collected value; [None] has no [pos]. *)
Fixpoint all_tiles (l : list (option BoardTile)) : result (list BoardTile) :=
  match l with
  | [] => Ok []
  | Some t :: l' => r <- all_tiles l' ;; Ok (t :: r)
  | None :: _ => Raise AttributeError
  end.

Definition sort_key (d : Direction) (t : BoardTile) : Z :=
  if decide (d = ACROSS) then (pos t).1 else (pos t).2.

(** [__get_intersecting_word_for_pos].  Its two [raise] statements have the
    form [raise ValueError(...), obj]: an exception instance with a separate
    value, which Python 2 refuses with a [TypeError]. *)
Definition get_intersecting_word_for_pos (fuel : nat) (b : BoardState)
    (tile : BoardTile) (d : Direction) : result (option (list BoardTile)) :=
  if negb (is_direction (dvec d))
  then Raise TypeError
  else if negb (contains b (pos tile))
  then Raise TypeError
  else
    fwd <- fan fuel b (dvec d) (pos tile) ;;
    bwd <- fan fuel b (opposite d) (pos tile) ;;
    let collected := Some tile :: fwd ++ bwd in
    if decide (length collected = 1%nat) then Ok None
    else ts <- all_tiles collected ;; Ok (Some (sorted_by (sort_key d) ts)).

Fixpoint intersecting_loop (fuel : nat) (b : BoardState) (d : Direction)
    (word : list BoardTile) (words : list string) : result (list string) :=
  match word with
  | [] => Ok words
  | tile :: rest =>
      r <- get_intersecting_word_for_pos fuel b tile d ;;
      match r with
      | Some ts => intersecting_loop fuel b d rest (words ++ [join (letters ts)])
      | None => intersecting_loop fuel b d rest words
      end
  end.

Definition get_intersecting_words (fuel : nat) (b : BoardState) (w : Word)
  : result (list string) :=
  match direction w with
  | None => match tiles w with [] => Ok [] | _ => Raise AttributeError end
  | Some d => intersecting_loop fuel b (orthogonal d) (tiles w) []
  end.

(** ** Pattern generation *)

(** The two accumulators [__make_pattern_rec] mutates: [ret] and [visited]. *)
Definition pstate : Type := list Word * gset (list string).

Definition has_blank (l : list BoardTile) : bool :=
  existsb (fun i => bool_decide (letter i = blank)) l.

Definition frontier_left (d : Direction) (first : BoardTile) : Position :=
  (px (pos first) - px (dvec d), py (pos first) - py (dvec d)).

Definition frontier_right (d : Direction) (lst : BoardTile) : Position :=
  (px (pos lst) + px (dvec d), py (pos lst) + py (dvec d)).

(** [__make_pattern_rec].  A [None] stored at a frontier is prepended or
    appended by the code and makes the next call fail on its first line,
    reading [w.letter]; the model raises at the point of the call. *)
Fixpoint make_pattern_rec (fuel : nat) (b : BoardState) (d : Direction)
    (remaining : Z) (current : list BoardTile) (st : pstate) : result pstate :=
  match fuel with
  | O => OutOfFuel
  | S fuel' =>
      let word := letters current in
      if decide (word ∈ st.2) then Ok st
      else
        let visited := {[ word ]} ∪ st.2 in
        if bool_decide (remaining = 0) && bool_decide (1 < length current)%nat
        then
          if has_blank current
          then w <- Word_init current ;; Ok (st.1 ++ [w], visited)
          else Ok (st.1, visited)
        else
          match head current, last current with
          | Some first, Some lst =>
              let fl := frontier_left d first in
              let fr := frontier_right d lst in
              if occupied b fl then
                match board_at b fl with
                | Some t =>
                    make_pattern_rec fuel' b d remaining (t :: current)
                      (st.1, visited)
                | None => Raise AttributeError
                end
              else if occupied b fr then
                match board_at b fr with
                | Some t =>
                    make_pattern_rec fuel' b d remaining (current ++ [t])
                      (st.1, visited)
                | None => Raise AttributeError
                end
              else
                st1 <- (if contains b fl
                        then make_pattern_rec fuel' b d (remaining - 1)
                               (mkTile fl blank :: current) (st.1, visited)
                        else Ok (st.1, visited)) ;;
                if contains b fr
                then make_pattern_rec fuel' b d (remaining - 1)
                       (current ++ [mkTile fr blank]) st1
                else Ok st1
          | _, _ => Raise IndexError
          end
  end.

(** One iteration of the loop of [make_patterns]: the list [scr]. *)
Definition pattern_level (fuel : nat) (b : BoardState) (d : Direction)
    (p : Position) (remaining : Z) : result (list Word) :=
  match board_at b p with
  | Some anchor =>
      st <- make_pattern_rec fuel b d remaining [anchor] ([], ∅) ;; Ok st.1
  | None => Raise AttributeError
  end.

Fixpoint patterns_loop (fuel : nat) (b : BoardState) (d : Direction)
    (p : Position) (levels : list Z) (ret : list Word) : result (list Word) :=
  match levels with
  | [] => Ok ret
  | remaining :: rest =>
      scr <- pattern_level fuel b d p remaining ;;
      patterns_loop fuel b d p rest (ret ++ scr)
  end.

Definition make_patterns (fuel : nat) (b : BoardState) (p : Position)
    (d : Direction) (max_tiles : Z) : result (list Word) :=
  if negb (contains b p)
  then Raise (ValueError "invalid tile location" [])
  else if negb (occupied b p)
  then Raise (ValueError "empty position tile" [])
  else patterns_loop fuel b d p (xrange 0 max_tiles) [].

(** Recursion budget that covers every run on board [b]. *)
Definition enough (b : BoardState) : nat :=
  S (S (Z.to_nat (width b) + Z.to_nat (height b))).

(** ** The search driver of main.py *)

Section Search.
(** [pattern.Pattern(p).find_matches(wordlist, gutter)], the test
    [i in wordlist] and [scoring.score_word] belong to modules outside
    this development. *)
Variable find_matches : option string -> string -> result (list string).
Variable wordlist_has : string -> result bool.
Variable score_word : Word -> Z.

(** [[BoardTile(pat[i].pos, m[i]) for i in xrange(0, len(pat))]] *)
Fixpoint fill (pat : list BoardTile) (m : string) : result (list BoardTile) :=
  match pat with
  | [] => Ok []
  | t :: pat' =>
      match m with
      | EmptyString => Raise IndexError
      | String c m' =>
          r <- fill pat' m' ;; Ok (mkTile (pos t) (String c EmptyString) :: r)
      end
  end.

(** [any(i not in wordlist for i in ints)] *)
Fixpoint any_not_in (ints : list string) : result bool :=
  match ints with
  | [] => Ok false
  | i :: rest => h <- wordlist_has i ;; if h then any_not_in rest else Ok true
  end.

Fixpoint matches_loop (fuel : nat) (brd : BoardState) (pat : Word)
    (matches : list string) (ret : list Word) : result (list Word) :=
  match matches with
  | [] => Ok ret
  | m :: rest =>
      ts <- fill (tiles pat) m ;;
      tile <- Word_init ts ;;
      ints <- get_intersecting_words fuel brd tile ;;
      bad <- any_not_in ints ;;
      if (bad : bool) then matches_loop fuel brd pat rest ret
      else matches_loop fuel brd pat rest (ret ++ [tile])
  end.

Fixpoint fit_loop (fuel : nat) (brd : BoardState) (gutter : string)
    (patterns : list Word) (ret : list Word) : result (list Word) :=
  match patterns with
  | [] => Ok ret
  | pat :: rest =>
      matches <- find_matches (get_pattern (tiles pat)) gutter ;;
      ret' <- matches_loop fuel brd pat matches ret ;;
      fit_loop fuel brd gutter rest ret'
  end.

Definition words_for_pos (fuel : nat) (brd : BoardState) (p : Position)
    (d : Direction) (gutter : string) : result (list Word) :=
  patterns <- make_patterns fuel brd p d (Z.of_nat (String.length gutter)) ;;
  fit_loop fuel brd gutter patterns [].

(** The inner loop of [get_best_words], over [j]. *)
Fixpoint scan_j (fuel : nat) (b : BoardState) (gutter : string) (i : Z)
    (js : list Z) (ret : list Word) : result (list Word) :=
  match js with
  | [] => Ok ret
  | j :: js' =>
      if negb (occupied b (i, j)) then scan_j fuel b gutter i js' ret
      else
        words <- words_for_pos fuel b (i, j) ACROSS gutter ;;
        words' <- words_for_pos fuel b (i, j) DOWN gutter ;;
        scan_j fuel b gutter i js' ((ret ++ words) ++ words')
  end.

(** The outer loop, over [i]. *)
Fixpoint scan_i (fuel : nat) (b : BoardState) (gutter : string)
    (cols : list Z) (ret : list Word) : result (list Word) :=
  match cols with
  | [] => Ok ret
  | i :: cols' =>
      ret' <- scan_j fuel b gutter i (xrange 0 (height b)) ret ;;
      scan_i fuel b gutter cols' ret'
  end.

Definition get_best_words (fuel : nat) (b : BoardState) (gutter : string)
  : result (list Word) :=
  ret <- scan_i fuel b gutter (xrange 0 (width b)) [] ;;
  Ok (sorted_by score_word ret).

(** The coordinates [get_best_words] searches from, in scan order. *)
Definition anchors (b : BoardState) : list Position :=
  i ← xrange 0 (width b);
  filter (fun p => occupied b p = true) ((fun j => (i, j)) <$> xrange 0 (height b)).

(** [BoardDelegate]: the board, the cached ranking and the hand. *)
Record Delegate := mkDelegate {
  board_state : BoardState;
  best_words : option (list Word);
  hand : gmap Z string
}.

(** [getNextBestWord]; [the_hand] is the value of [self.getHand()], whose
    letter order is the iteration order of a dictionary. *)
Definition getNextBestWord (fuel : nat) (dg : Delegate) (the_hand : string)
  : Delegate * result (option (list BoardTile)) :=
  let computed :=
    match best_words dg with
    | Some l => Ok l
    | None => get_best_words fuel (board_state dg) the_hand
    end in
  match computed with
  | Ok l =>
      (mkDelegate (board_state dg) (Some l) (hand dg),
       Ok (match last l with
           | Some best =>
               Some (filter (fun i => occupied (board_state dg) (pos i) = false)
                       (tiles best))
           | None => None
           end))
  | Raise e => (dg, Raise e)
  | OutOfFuel => (dg, OutOfFuel)
  end.

(** [tileWasCleared]: the [KeyError] of the board is swallowed, the one of
    the hand, whose key is the column, is not. *)
Definition tileWasCleared (dg : Delegate) (p : Position)
  : Delegate * result unit :=
  let '(b', r) := manually_delete_tile (board_state dg) p in
  match r with
  | Ok _ | Raise (KeyError _) | Raise (KeyErrorInt _) =>
      if bool_decide (p.2 = 15) then
        match hand dg !! p.1 with
        | Some _ =>
            (mkDelegate b' (best_words dg) (delete p.1 (hand dg)), Ok tt)
        | None =>
            (mkDelegate b' (best_words dg) (hand dg), Raise (KeyErrorInt p.1))
        end
      else (mkDelegate b' (best_words dg) (hand dg), Ok tt)
  | _ => (mkDelegate b' (best_words dg) (hand dg), r)
  end.
(** What the loop body of [get_best_words] adds for an anchor [p]: the
    candidates across, then the candidates down. *)
Definition searched (fuel : nat) (b : BoardState) (gutter : string)
    (p : Position) (ws : list Word) : Prop :=
  ∃ wa wd,
    words_for_pos fuel b p ACROSS gutter = Ok wa
    ∧ words_for_pos fuel b p DOWN gutter = Ok wd
    ∧ ws = wa ++ wd.
End Search.

(** ** Well-formed boards *)

(** No key of the board maps to [None]. *)
Definition stores_tiles (b : BoardState) : Prop :=
  ∀ p, board b !! p ≠ Some None.

(** What [manually_put_tile] maintains: every key is on the board and holds
    a tile that sits at that key. *)
Definition wf_board (b : BoardState) : Prop :=
  ∀ p v, board b !! p = Some v →
    ∃ t, v = Some t ∧ pos t = p ∧ contains b p = true.

(** The letters of [word] match whatever the board already holds. *)
Definition agrees (b : BoardState) (word : list BoardTile) : Prop :=
  ∀ t e, t ∈ word → board b !! pos t = Some (Some e) → letter t = letter e.

Definition on_board (b : BoardState) (l : list BoardTile) : Prop :=
  Forall (fun t => contains b (pos t) = true) l.

(** A tile the loop of [put_word] has passed is on the board with its
    letter. *)
Definition written (b : BoardState) (t : BoardTile) : Prop :=
  ∃ e, board b !! pos t = Some (Some e) ∧ letter e = letter t.

(** Consecutive tiles are one step [d] apart. *)
Fixpoint steps (d : Position) (l : list BoardTile) : Prop :=
  match l with
  | a :: ((c :: _) as tl) => pos c = step (pos a) d ∧ steps d tl
  | _ => True
  end.

(** ** Sequences built by the pattern search *)

(** A run of tiles along [d], all on the board. *)
Definition segment (b : BoardState) (d : Direction) (cur : list BoardTile)
  : Prop :=
  cur ≠ [] ∧ steps (dvec d) cur ∧ on_board b cur.

(** No tile placed on the board carries the placeholder letter. *)
Definition no_blank_tiles (b : BoardState) : Prop :=
  ∀ p t, board b !! p = Some (Some t) → letter t ≠ blank.

(** Every tile placed on the board carries a letter of one character. *)
Definition single_letters (b : BoardState) : Prop :=
  ∀ p t, board b !! p = Some (Some t) → String.length (letter t) = 1%nat.

(** Follows the spec's words: the sequences "reachable by extending outward
    from the anchor along that axis", with the number of placeholder tiles
    used.  An occupied frontier cell is absorbed at no cost; an empty
    frontier cell on the board takes a placeholder. *)
Inductive reachable (b : BoardState) (d : Direction) (anchor : BoardTile)
  : nat → list BoardTile → Prop :=
| reach_anchor : reachable b d anchor 0 [anchor]
| reach_absorb_left n cur first t :
    reachable b d anchor n cur → head cur = Some first →
    board b !! frontier_left d first = Some (Some t) →
    reachable b d anchor n (t :: cur)
| reach_absorb_right n cur lst t :
    reachable b d anchor n cur → last cur = Some lst →
    board b !! frontier_right d lst = Some (Some t) →
    reachable b d anchor n (cur ++ [t])
| reach_blank_left n cur first :
    reachable b d anchor n cur → head cur = Some first →
    board b !! frontier_left d first = None →
    contains b (frontier_left d first) = true →
    reachable b d anchor (S n) (mkTile (frontier_left d first) blank :: cur)
| reach_blank_right n cur lst :
    reachable b d anchor n cur → last cur = Some lst →
    board b !! frontier_right d lst = None →
    contains b (frontier_right d lst) = true →
    reachable b d anchor (S n) (cur ++ [mkTile (frontier_right d lst) blank]).

(** The tile carries a letter of exactly one character. *)
Definition one_char (t : BoardTile) : Prop := String.length (letter t) = 1%nat.

(** What the search keeps true of [ret] and [visited] within one budget
    level: every collected pattern holds a placeholder, the letter tuples of
    the collected patterns are pairwise distinct and all marked as visited,
    and the patterns are made of one-character letters when the board is. *)
Definition level_state (b : BoardState) (st : pstate) : Prop :=
  Forall (fun w => has_blank (tiles w) = true) st.1
  ∧ NoDup (letters ∘ tiles <$> st.1)
  ∧ (∀ w, w ∈ st.1 → letters (tiles w) ∈ st.2)
  ∧ (single_letters b → Forall (fun w => Forall one_char (tiles w)) st.1).

(** ** The example board *)

(** [b.put_word(make_word(word, pos, direction))], the board threaded. *)
Definition put_made_word (b : BoardState) (word : string) (p : Position)
    (d : Direction) : result BoardState :=
  w <- make_word word p d ;;
  match put_word b (tiles w) with
  | (b', Ok _) => Ok b'
  | (_, Raise e) => Raise e
  | (_, OutOfFuel) => OutOfFuel
  end.

(** [get_example_board] *)
Definition get_example_board : result BoardState :=
  b <- put_made_word (BoardState_init 15 15) "cat" (0, 0) ACROSS ;;
  b <- put_made_word b "corner" (0, 0) DOWN ;;
  b <- put_made_word b "rent" (0, 2) ACROSS ;;
  b <- put_made_word b "end" (0, 4) ACROSS ;;
  put_made_word b "tuned" (2, 0) DOWN.

(** The board [get_example_board] returns. *)
Definition example_board : BoardState :=
  match get_example_board with
  | Ok b => b
  | _ => BoardState_init 15 15
  end.

(** ** Cross words *)

(** Follows the spec's words: the tiles met "outward ... until an empty or
    off-board cell is reached", walking from [cur] in steps of [v]; each
    tile sits on the cell it was read from. *)
Inductive run (b : BoardState) (v : Position)
  : Position → list BoardTile → Prop :=
| run_stop cur :
    contains b (step cur v) = false ∨ board b !! step cur v = None →
    run b v cur []
| run_more cur t rest :
    contains b (step cur v) = true →
    board b !! step cur v = Some (Some t) → pos t = step cur v →
    run b v (step cur v) rest →
    run b v cur (t :: rest).

(** The cross word through [tile], given the runs behind and ahead of it:
    none when both are empty, else the letters in board order. *)
Definition cross_word (tile : BoardTile) (bwd fwd : list BoardTile)
  : option string :=
  match bwd, fwd with
  | [], [] => None
  | _, _ => Some (join (letters (rev bwd ++ tile :: fwd)))
  end.

(** Cells left on the board ahead of [cur] in the unit direction [v]. *)
Definition room (b : BoardState) (v cur : Position) : Z :=
  if bool_decide (v = (1, 0)) then width b - cur.1
  else if bool_decide (v = (-1, 0)) then cur.1
  else if bool_decide (v = (0, 1)) then height b - cur.2
  else cur.2.

Definition unit_vector (v : Position) : Prop :=
  v = (1, 0) ∨ v = (-1, 0) ∨ v = (0, 1) ∨ v = (0, -1).

(** The coordinate [sorted] compares, read off a position. *)
Definition coord (d : Direction) (p : Position) : Z :=
  if decide (d = ACROSS) then p.1 else p.2.

(** ** Further notions for the pattern search *)

(** Number of placeholder tiles in a sequence. *)
Definition count_blank (l : list BoardTile) : nat :=
  length (filter (fun t => letter t = blank) l).

(** A tile of a pattern fits the board: its cell is on the board and either
    holds exactly this tile, or is empty and the tile is a placeholder. *)
Definition fits (b : BoardState) (t : BoardTile) : Prop :=
  contains b (pos t) = true
  ∧ (board b !! pos t = Some (Some t)
     ∨ (letter t = blank ∧ board b !! pos t = None)).

(** One [try: b.make_patterns(pos, direction) except ValueError: pass] of
    the loop at the end of board.py; [max_tiles] takes its default. *)
Definition try_make_patterns (fuel : nat) (b : BoardState) (p : Position)
    (d : Direction) : result unit :=
  match make_patterns fuel b p d 7 with
  | Ok _ => Ok tt
  | Raise (ValueError _ _) => Ok tt
  | Raise e => Raise e
  | OutOfFuel => OutOfFuel
  end.

(** The loop over the cells, in the order the two [for] loops visit them. *)
Fixpoint scan_cells (fuel : nat) (b : BoardState) (cells : list Position)
  : result unit :=
  match cells with
  | [] => Ok tt
  | p :: rest =>
      _ <- try_make_patterns fuel b p ACROSS ;;
      _ <- try_make_patterns fuel b p DOWN ;;
      scan_cells fuel b rest
  end.

(** The statements board.py runs when it is imported. *)
Definition board_module_scan (fuel : nat) : result unit :=
  b <- get_example_board ;;
  scan_cells fuel b (i ← xrange 0 15; (fun j => (i, j)) <$> xrange 0 15).

(** ** Candidates of the search *)

(** What [words_for_pos] requires of a word it keeps for pattern [pat]: it is
    one of the matcher's answers for the pattern, laid over the positions of
    the pattern and accepted by [Word], and every cross word it forms on the
    board passes the lexicon test. *)
Definition candidate
    (find_matches : option string → string → result (list string))
    (wordlist_has : string → result bool)
    (fuel : nat) (brd : BoardState) (gutter : string) (pat w : Word) : Prop :=
  ∃ matches m ints,
    find_matches (get_pattern (tiles pat)) gutter = Ok matches
    ∧ m ∈ matches
    ∧ fill (tiles pat) m = Ok (tiles w)
    ∧ Word_init (tiles w) = Ok w
    ∧ get_intersecting_words fuel brd w = Ok ints
    ∧ Forall (fun i => wordlist_has i = Ok true) ints.

(** ** The other methods of [BoardDelegate] *)

(** [boardWasModified] *)
Definition boardWasModified (dg : Delegate) : Delegate :=
  mkDelegate (board_state dg) None (hand dg).

(** [letterWasInput]; [None] stands for the [AssertionError] of [BoardTile]
    on a letter of more than one character. *)
Definition letterWasInput (dg : Delegate) (l : string) (p : Position)
  : option (Delegate * result unit) :=
  match BoardTile_init p l with
  | None => None
  | Some t =>
      match manually_put_tile (board_state dg) t with
      | (b', Ok _) =>
          if bool_decide (p.2 = 15)
          then Some (mkDelegate b' (best_words dg) (<[p.1 := l]> (hand dg)),
                     Ok tt)
          else Some (mkDelegate b' (best_words dg) (hand dg), Ok tt)
      | (b', r) => Some (mkDelegate b' (best_words dg) (hand dg), r)
      end
  end.

(** [acceptWord]; [None] and the empty list are the falsy words. *)
Definition acceptWord (dg : Delegate) (word : option (list BoardTile))
  : Delegate * result unit :=
  match word with
  | None | Some [] => (dg, Ok tt)
  | Some ts =>
      let '(b', r) := put_word (board_state dg) ts in
      (mkDelegate b' (best_words dg) (hand dg), r)
  end.

(** ** lists.py: word lists *)

(** Exceptions raised in lists.py. *)
Inductive wl_error :=
| WKeyError (word : string)
| WAttributeError (attr : string)
| WIOError (name : string).

(** [str.lower()] on byte strings, in the default "C" locale: the letters
    [A-Z] become [a-z], every other character stays. *)
Definition lower_ascii (c : Ascii.ascii) : Ascii.ascii :=
  let n := Ascii.nat_of_ascii c in
  if (65 <=? n)%nat && (n <=? 90)%nat then Ascii.ascii_of_nat (n + 32)
  else c.

Fixpoint lower (s : string) : string :=
  match s with
  | EmptyString => EmptyString
  | String c s' => String (lower_ascii c) (lower s')
  end.

(** [line.replace('\n', '')] *)
Fixpoint remove_newlines (s : string) : string :=
  match s with
  | EmptyString => EmptyString
  | String c s' =>
      if Ascii.eqb c (Ascii.ascii_of_nat 10) then remove_newlines s'
      else String c (remove_newlines s')
  end.

(** A [WordList] object: its set of words and the flag
    [__did_register_writeback]. *)
Record WordList := mkWordList {
  wordlist : gset string;
  did_register_writeback : bool
}.

(** [WordList(name)], given the lines [f.xreadlines()] yields. *)
Definition WordList_init (lines : list string) : WordList :=
  mkWordList
    (foldl (fun s line => {[ remove_newlines line ]} ∪ s) ∅ lines) false.

(** [WordList.contains] *)
Definition wl_contains (wl : WordList) (word : string) : bool :=
  bool_decide (lower word ∈ wordlist wl).

(** [__register_writeback]: with the flag set it returns; otherwise the
    argument [self.func] is evaluated first, and [WordList] has no such
    attribute, so nothing is registered and the flag is never set. *)
Definition register_writeback (wl : WordList)
  : WordList * option wl_error :=
  if did_register_writeback wl then (wl, None)
  else (wl, Some (WAttributeError "func")).

(** [WordList.add_word] *)
Definition add_word (wl : WordList) (word : string)
  : WordList * option wl_error :=
  register_writeback
    (mkWordList ({[ lower word ]} ∪ wordlist wl) (did_register_writeback wl)).

(** [WordList.remove_word]: [set.remove] of a missing element raises. *)
Definition remove_word (wl : WordList) (word : string)
  : WordList * option wl_error :=
  if bool_decide (lower word ∈ wordlist wl)
  then register_writeback
         (mkWordList (wordlist wl ∖ {[ lower word ]})
            (did_register_writeback wl))
  else (wl, Some (WKeyError (lower word))).

(** [get_wordlist(name)]: the module's cache [__wordlists] maps a name to
    its one [WordList] object; [files] gives the lines of the file of that
    name, if it can be opened.  The object returned is the one stored under
    [name]. *)
Definition get_wordlist (files : string → option (list string))
    (cache : gmap string WordList) (name : string)
  : gmap string WordList * option wl_error :=
  match cache !! name with
  | Some _ => (cache, None)
  | None =>
      match files name with
      | Some lines => (<[name := WordList_init lines]> cache, None)
      | None => (cache, Some (WIOError name))
      end
  end.

(** * Properties *)

(** ** The grid *)

Lemma contains_spec b p :
  contains b p = true ↔ 0 ≤ p.1 ≤ width b ∧ 0 ≤ p.2 ≤ height b.
Proof. unfold contains. rewrite !andb_true_iff, !Z.leb_le. lia. Qed.

Lemma occupied_true b p : occupied b p = true ↔ is_Some (board b !! p).
Proof. unfold occupied. apply bool_decide_eq_true. Qed.

Lemma occupied_false b p : occupied b p = false ↔ board b !! p = None.
Proof.
  unfold occupied. rewrite bool_decide_eq_false, <- eq_None_not_Some. done.
Qed.

Lemma wf_board_init h w : wf_board (BoardState_init h w).
Proof. intros p v H. cbn in H. by rewrite lookup_empty in H. Qed.

Lemma wf_stores_tiles b : wf_board b → stores_tiles b.
Proof. intros Hwf p Hp. destruct (Hwf _ _ Hp) as (t & Ht & _). done. Qed.

Lemma manually_put_tile_wf b t b' r :
  wf_board b → manually_put_tile b t = (b', r) → wf_board b'.
Proof.
  unfold manually_put_tile. intros Hwf H.
  destruct (contains b (pos t)) eqn:Hc; simplify_eq; [|done].
  intros p v. cbn. rewrite lookup_insert. case_decide; intros Hv.
  - simplify_eq. by exists t.
  - apply Hwf in Hv. done.
Qed.

Lemma put_word_wf word : ∀ b b' r,
  wf_board b → put_word b word = (b', r) → wf_board b'.
Proof.
  induction word as [|t rest IH]; intros b b' r Hwf H; cbn in H.
  - by simplify_eq.
  - destruct (board b !! pos t) as [[e|]|] eqn:Hl.
    + destruct (decide (letter t = letter e)); [eauto | by simplify_eq].
    + by simplify_eq.
    + destruct (manually_put_tile b t) as [b1 [[]|e|]] eqn:Hp;
        [ | by simplify_eq; eapply manually_put_tile_wf..].
      eapply IH; [|done]. by eapply manually_put_tile_wf.
Qed.

Lemma manually_delete_tile_wf b p b' r :
  wf_board b → manually_delete_tile b p = (b', r) → wf_board b'.
Proof.
  unfold manually_delete_tile. intros Hwf H.
  destruct (board b !! p) eqn:Hl; simplify_eq; [|done].
  intros q v. cbn. rewrite lookup_delete. case_decide; [done|]. apply Hwf.
Qed.

(** C8: on a board built with height [h] and width [w], a coordinate is
    contained exactly when [0 <= x <= w] and [0 <= y <= h], both upper
    bounds included. *)
Theorem contains_inclusive_bounds (h w x y : Z) :
  contains (BoardState_init h w) (x, y) = true ↔ (0 ≤ x ≤ w ∧ 0 ≤ y ≤ h).
Proof. by rewrite contains_spec. Qed.

(** C6, as stated, fails: deleting at an empty cell raises [KeyError]. *)
Lemma manually_delete_tile_empty_cell_raises :
  (manually_delete_tile (BoardState_init 15 15) (3, 3)).2
  = Raise (KeyError (3, 3)).
Proof. reflexivity. Qed.

(** C6, amended: on an occupied cell [manually_delete_tile] returns normally
    and removes that key and no other; on an empty cell it raises [KeyError]
    and leaves the board as it was, and [tileWasCleared] swallows that error,
    so that, away from the hand row, clearing an empty cell returns normally
    with the board unchanged. *)
Theorem manually_delete_tile_spec (b : BoardState) (p : Position) :
  match board b !! p with
  | Some _ =>
      ∃ b', manually_delete_tile b p = (b', Ok tt)
        ∧ height b' = height b ∧ width b' = width b
        ∧ ∀ q, board b' !! q = if decide (q = p) then None else board b !! q
  | None =>
      manually_delete_tile b p = (b, Raise (KeyError p))
      ∧ ∀ bw hd,
          board_state (tileWasCleared (mkDelegate b bw hd) p).1 = b
          ∧ (p.2 = 15 ∨ (tileWasCleared (mkDelegate b bw hd) p).2 = Ok tt)
  end.
Proof.
  destruct (board b !! p) as [v|] eqn:Hl.
  - exists (set_board b (delete p (board b))). unfold manually_delete_tile.
    rewrite Hl. repeat split. intros q. cbn. rewrite lookup_delete.
    repeat case_decide; congruence.
  - assert (Hd : manually_delete_tile b p = (b, Raise (KeyError p))).
    { unfold manually_delete_tile. by rewrite Hl. }
    split; [done|]. intros bw hd. unfold tileWasCleared.
    cbn [board_state hand best_words]. rewrite Hd. cbn.
    case_bool_decide; [|by auto].
    destruct (hd !! p.1); cbn; auto.
Qed.

(** ** Placing words *)

Lemma put_word_dims word : ∀ b b' r,
  put_word b word = (b', r) → height b' = height b ∧ width b' = width b.
Proof.
  induction word as [|t rest IH]; intros b b' r H; cbn in H.
  - by simplify_eq.
  - destruct (board b !! pos t) as [[e|]|] eqn:Hl.
    + destruct (decide (letter t = letter e)); [eauto | by simplify_eq].
    + by simplify_eq.
    + unfold manually_put_tile in H.
      destruct (contains b (pos t)); [|by simplify_eq].
      apply IH in H. done.
Qed.

(** Nothing that is on the board is ever replaced by [put_word]. *)
Lemma put_word_mono word : ∀ b b' r p v,
  put_word b word = (b', r) → board b !! p = Some v → board b' !! p = Some v.
Proof.
  induction word as [|t rest IH]; intros b b' r p v H Hp; cbn in H.
  - by simplify_eq.
  - destruct (board b !! pos t) as [[e|]|] eqn:Hl.
    + destruct (decide (letter t = letter e)); [eauto | by simplify_eq].
    + by simplify_eq.
    + unfold manually_put_tile in H.
      destruct (contains b (pos t)); [|by simplify_eq].
      eapply IH; [done|]. cbn. rewrite lookup_insert_ne; [done|].
      intros Heq. rewrite Heq in Hl. congruence.
Qed.

(** The two ways [put_word] ends on a board without [None] entries when all
    tiles are on the board. *)
Lemma put_word_cases word : ∀ b,
  stores_tiles b → on_board b word →
  (∃ b', put_word b word = (b', Ok tt) ∧ Forall (written b') word)
  ∨ (∃ pre t post e b',
       word = pre ++ t :: post
       ∧ put_word b word
         = (b', Raise (ValueError "tile letter does not match board letter"
                         [show e; show t]))
       ∧ board b' !! pos t = Some (Some e) ∧ letter t ≠ letter e
       ∧ Forall (written b') pre
       ∧ (board b !! pos t = Some (Some e) ∨ ∃ u, u ∈ pre ∧ pos u = pos t)).
Proof.
  induction word as [|t rest IH]; intros b Hst Hon.
  - left. exists b. by split.
  - apply Forall_cons in Hon as [Hc Hon]. cbn.
    destruct (board b !! pos t) as [[e|]|] eqn:Hl.
    + destruct (decide (letter t = letter e)) as [He|He].
      * destruct (IH b Hst Hon) as [(b' & Hp & Hw)|(pre & u & post & e' & b' & -> & Hp & Hl' & Hne & Hw & Hor)].
        -- left. exists b'. split; [done|]. constructor; [|done].
           exists e. split; [|done]. eapply put_word_mono; done.
        -- right. exists (t :: pre), u, post, e', b'. repeat split; try done.
           ++ constructor; [|done]. exists e. split; [|done].
              eapply put_word_mono; done.
           ++ destruct Hor as [?|(u' & ? & ?)]; [by left|right].
              exists u'. split; [by right|done].
      * right. exists [], t, rest, e, b. repeat split; try done. by left.
    + by destruct (Hst (pos t)).
    + unfold manually_put_tile. rewrite Hc.
      set (b1 := set_board b (<[pos t:=Some t]> (board b))).
      assert (Hl1 : board b1 !! pos t = Some (Some t)) by apply lookup_insert_eq.
      assert (Hst1 : stores_tiles b1).
      { intros p. cbn. rewrite lookup_insert. case_decide; [done|apply Hst]. }
      destruct (IH b1 Hst1 Hon) as [(b' & Hp & Hw)|(pre & u & post & e' & b' & -> & Hp & Hl' & Hne & Hw & Hor)].
      * left. exists b'. split; [done|]. constructor; [|done].
        exists t. split; [|done]. eapply put_word_mono; done.
      * right. exists (t :: pre), u, post, e', b'. repeat split; try done.
        -- constructor; [|done]. exists t. split; [|done].
           eapply put_word_mono; done.
        -- destruct Hor as [Hb|(u' & ? & ?)].
           ++ cbn in Hb. rewrite lookup_insert in Hb. case_decide.
              ** right. exists t. split; [by left|done].
              ** by left.
           ++ right. exists u'. split; [by right|done].
Qed.

(** Placing a word whose tiles are all written changes nothing. *)
Lemma put_word_written word : ∀ b,
  Forall (written b) word → put_word b word = (b, Ok tt).
Proof.
  induction word as [|t rest IH]; intros b Hw; [done|].
  apply Forall_cons in Hw as [(e & Hl & He) Hw]. cbn. rewrite Hl.
  destruct (decide (letter t = letter e)); [auto|congruence].
Qed.

(** ** Words *)

Lemma sliding_window_nil {A} : sliding_window (@nil A) 2 = [].
Proof. reflexivity. Qed.

Lemma sliding_window_one {A} (a : A) : sliding_window [a] 2 = [].
Proof. reflexivity. Qed.

Lemma sliding_window_cons {A} (a c : A) l :
  sliding_window (a :: c :: l) 2 = [a; c] :: sliding_window (c :: l) 2.
Proof.
  unfold sliding_window. cbn [length].
  replace (S (S (length l)) + 1 - 2)%nat with (S (length l)) by lia.
  replace (S (length l) + 1 - 2)%nat with (length l) by lia.
  cbn [seq fmap list_fmap]. f_equal.
  rewrite <- fmap_S_seq, <- list_fmap_compose. done.
Qed.

Lemma step_diff (p q d : Position) : diff_pos q p = d ↔ q = step p d.
Proof.
  destruct p, q, d. unfold diff_pos, step. cbn.
  split; intros H; simplify_eq; f_equal; lia.
Qed.

Lemma make_direction_dvec d : make_direction (dvec d) = Ok d.
Proof. by destruct d. Qed.

Lemma is_direction_spec v : is_direction v = true ↔ ∃ d, v = dvec d.
Proof.
  unfold is_direction. rewrite orb_true_iff, !bool_decide_eq_true. split.
  - intros [->| ->]; eauto.
  - intros [[] ->]; auto.
Qed.

Lemma dvec_inj d1 d2 : dvec d1 = dvec d2 → d1 = d2.
Proof. by destruct d1, d2. Qed.

(** With the direction already fixed, the loop checks every step. *)
Lemma validate_direction_fixed d l : ∀ a,
  ∃ flag, validate_direction (sliding_window (a :: l) 2) (Some d)
          = Ok (flag, Some d)
    ∧ (flag = true ↔ steps (dvec d) (a :: l)).
Proof.
  induction l as [|c l IH]; intros a.
  - exists true. by split.
  - rewrite sliding_window_cons. cbn [validate_direction].
    case_bool_decide as Hd.
    + destruct (IH c) as (flag & -> & Hf). exists flag. split; [done|].
      rewrite Hf. cbn [steps]. apply step_diff in Hd. tauto.
    + exists false. split; [done|]. cbn [steps]. rewrite <- step_diff.
      split; [done|tauto].
Qed.

(** [Word(lst)] returns exactly for lists of two or more tiles that advance
    by the unit step of one direction, which becomes the word's. *)
Lemma Word_init_Ok l W :
  Word_init l = Ok W ↔
  ∃ d, W = mkWord l (Some d) ∧ (2 ≤ length l)%nat ∧ steps (dvec d) l.
Proof.
  unfold Word_init. case_decide as Hlen.
  { split; [done|]. intros (d & _ & ? & _). lia. }
  destruct l as [|a [|c l]]; cbn in Hlen; try lia.
  rewrite sliding_window_cons. cbn [validate_direction].
  destruct (is_direction (diff_pos (pos c) (pos a))) eqn:Hdir.
  - apply is_direction_spec in Hdir as [d Hd]. rewrite Hd, make_direction_dvec.
    cbn [bind]. destruct (validate_direction_fixed d l c) as (flag & -> & Hf).
    cbn [bind fst snd]. apply step_diff in Hd. destruct flag.
    + split.
      * intros [= <-]. exists d. repeat split; [cbn; lia|done|by apply Hf].
      * intros (d' & -> & _ & Hs & _). f_equal. f_equal. f_equal.
        apply dvec_inj. rewrite Hd in Hs.
        destruct (pos a), (dvec d), (dvec d'). unfold step in Hs. cbn in Hs.
        simplify_eq. f_equal; lia.
    + split; [done|]. intros (d' & -> & _ & Hs & Hs').
      assert (d' = d) as ->.
      { apply dvec_inj. rewrite Hd in Hs.
        destruct (pos a), (dvec d), (dvec d'). unfold step in Hs. cbn in Hs.
        simplify_eq. f_equal; lia. }
      apply Hf in Hs'. done.
  - cbn [bind fst]. split; [done|]. intros (d & _ & _ & Hs & _).
    apply step_diff in Hs. rewrite Hs in Hdir.
    assert (is_direction (dvec d) = true) by (apply is_direction_spec; eauto).
    congruence.
Qed.

Lemma steps_lookup d l : ∀ a i t,
  steps d (a :: l) → (a :: l) !! i = Some t →
  pos t = ((pos a).1 + Z.of_nat i * d.1, (pos a).2 + Z.of_nat i * d.2).
Proof.
  induction l as [|c l IH]; intros a i t Hs Hi.
  - destruct i; [|done]. cbn in Hi. simplify_eq. destruct (pos t). cbn.
    f_equal; lia.
  - destruct i as [|i].
    + cbn in Hi. simplify_eq. destruct (pos t). cbn. f_equal; lia.
    + destruct Hs as [Hc Hs]. rewrite (IH c i t Hs Hi), Hc. unfold step. cbn.
      f_equal; lia.
Qed.

Lemma steps_NoDup d l : steps (dvec d) l → NoDup (pos <$> l).
Proof.
  intros Hs. apply NoDup_alt. intros i j p Hi Hj.
  rewrite list_lookup_fmap in Hi, Hj.
  destruct (l !! i) as [t|] eqn:Hti; [|done].
  destruct (l !! j) as [u|] eqn:Htj; [|done].
  cbn in Hi, Hj. injection Hi as Hi. injection Hj as Hj.
  destruct l as [|a l]; [done|].
  rewrite (steps_lookup _ _ _ _ _ Hs Hti) in Hi.
  rewrite (steps_lookup _ _ _ _ _ Hs Htj), <- Hi in Hj.
  destruct d; cbn in Hj; simplify_eq; lia.
Qed.

(** C5: on a board without [None] entries, for a word accepted by [Word]
    whose tiles are all on the board: when its letters match the tiles
    already placed, [put_word] returns normally and a second [put_word] of
    the same word returns normally with the board unchanged; when some
    letter differs from a placed tile, [put_word] raises the letter-mismatch
    [ValueError] naming the existing tile and the offending one, and every
    tile before the offending one is on the board with its letter. *)
Theorem put_word_twice_or_mismatch (b : BoardState) (w : Word) :
  stores_tiles b → Word_init (tiles w) = Ok w → on_board b (tiles w) →
  (agrees b (tiles w) →
     ∃ b1, put_word b (tiles w) = (b1, Ok tt)
       ∧ put_word b1 (tiles w) = (b1, Ok tt))
  ∧ (¬ agrees b (tiles w) →
     ∃ pre t post e b',
       tiles w = pre ++ t :: post
       ∧ put_word b (tiles w)
         = (b', Raise (ValueError "tile letter does not match board letter"
                         [show e; show t]))
       ∧ board b' !! pos t = Some (Some e) ∧ letter t ≠ letter e
       ∧ Forall (written b') pre).
Proof.
  intros Hst Hw Hon. apply Word_init_Ok in Hw as (d & _ & _ & Hs).
  apply steps_NoDup in Hs.
  destruct (put_word_cases (tiles w) b Hst Hon)
    as [(b1 & Hp & Hwr)|(pre & t & post & e & b' & Heq & Hp & Hl & Hne & Hwr & Hor)].
  - split.
    + intros _. exists b1. split; [done|]. by apply put_word_written.
    + intros Hna. destruct Hna. intros t e Ht Hl.
      rewrite Forall_forall in Hwr. destruct (Hwr t Ht) as (e' & Hl' & He').
      eapply put_word_mono in Hl; [|done]. congruence.
  - split.
    + intros Hag. exfalso. destruct Hor as [Hb|(u & Hu & Hpu)].
      * apply Hne. apply (Hag t e); [|done]. rewrite Heq. set_solver.
      * rewrite Heq, fmap_app, fmap_cons in Hs.
        apply NoDup_app in Hs as (_ & Hs & _). apply (Hs (pos t)).
        -- rewrite <- Hpu. by apply list_elem_of_fmap_2.
        -- left.
    + intros _. exists pre, t, post, e, b'. done.
Qed.

Lemma put_word_twice_or_mismatch_witness :
  ∃ b1, put_word (BoardState_init 15 15)
          [mkTile (0, 0) "c"; mkTile (1, 0) "a"; mkTile (2, 0) "t"]
        = (b1, Ok tt)
    ∧ put_word b1 [mkTile (0, 0) "c"; mkTile (1, 0) "a"; mkTile (2, 0) "t"]
      = (b1, Ok tt).
Proof.
  refine (proj1 (put_word_twice_or_mismatch (BoardState_init 15 15)
    (mkWord [mkTile (0, 0) "c"; mkTile (1, 0) "a"; mkTile (2, 0) "t"]
       (Some ACROSS)) _ _ _) _).
  - intros p. cbn. by rewrite lookup_empty.
  - reflexivity.
  - repeat constructor.
  - intros t e _. cbn. by rewrite lookup_empty.
Defined.

(** ** Reading a cell *)

(** [get_tile] returns what the board holds at the position, [None] for an
    empty cell; on an occupied cell the board is left as it was. *)
Lemma get_tile_value b p : (get_tile b p).2 = board_at b p.
Proof. unfold get_tile, board_at. by destruct (board b !! p). Qed.

Lemma get_tile_occupied b p :
  occupied b p = true → (get_tile b p).1 = b.
Proof.
  rewrite occupied_true. intros [v Hv]. unfold get_tile. by rewrite Hv.
Qed.

(** On an empty cell the key is stored: the cell counts as occupied. *)
Lemma get_tile_empty b p :
  occupied b p = false →
  occupied (get_tile b p).1 p = true ∧ board (get_tile b p).1 !! p = Some None.
Proof.
  rewrite occupied_false. intros Hv. unfold get_tile. rewrite Hv. cbn.
  rewrite occupied_true. cbn. rewrite lookup_insert_eq. eauto.
Qed.

(** C7 fails on the code: reading the empty cell next to a tile stores a
    [None] there, after which the cell tests as occupied and both
    [make_patterns] from the neighbouring tile and [put_word] over the cell
    raise [AttributeError] where they returned normally before. *)
Theorem get_tile_empty_cell_changes_board :
  let b0 := (manually_put_tile (BoardState_init 15 15) (mkTile (3, 3) "a")).1 in
  let b1 := (get_tile b0 (4, 3)).1 in
  (get_tile b0 (4, 3)).2 = None
  ∧ occupied b0 (4, 3) = false ∧ occupied b1 (4, 3) = true
  ∧ make_patterns (enough b0) b0 (3, 3) ACROSS 2
    = Ok [mkWord [mkTile (2, 3) "_"; mkTile (3, 3) "a"] (Some ACROSS);
          mkWord [mkTile (3, 3) "a"; mkTile (4, 3) "_"] (Some ACROSS)]
  ∧ make_patterns (enough b1) b1 (3, 3) ACROSS 2 = Raise AttributeError
  ∧ (put_word b0 [mkTile (3, 3) "a"; mkTile (4, 3) "b"]).2 = Ok tt
  ∧ (put_word b1 [mkTile (3, 3) "a"; mkTile (4, 3) "b"]).2 = Raise AttributeError.
Proof. vm_compute. repeat split. Qed.

(** ** The pattern search *)

Lemma board_at_Some b p t :
  board_at b p = Some t ↔ board b !! p = Some (Some t).
Proof.
  unfold board_at. destruct (board b !! p) as [[u|]|]; cbn; naive_solver.
Qed.

Lemma emit_test rem (cur : list BoardTile) :
  bool_decide (rem = 0) && bool_decide (1 < length cur)%nat = true
  ↔ rem = 0 ∧ (1 < length cur)%nat.
Proof. by rewrite andb_true_iff, !bool_decide_eq_true. Qed.

Section RecInvariant.
Context (b : BoardState) (d : Direction).
Variable I : Z → list BoardTile → Prop.
Variable Q : pstate → Prop.

Hypothesis absorb_left : ∀ rem cur first t,
  I rem cur → head cur = Some first →
  board b !! frontier_left d first = Some (Some t) → I rem (t :: cur).
Hypothesis absorb_right : ∀ rem cur lst t,
  I rem cur → last cur = Some lst →
  board b !! frontier_right d lst = Some (Some t) → I rem (cur ++ [t]).
Hypothesis blank_left : ∀ rem cur first,
  I rem cur → head cur = Some first →
  board b !! frontier_left d first = None →
  contains b (frontier_left d first) = true →
  ¬ (rem = 0 ∧ (1 < length cur)%nat) →
  I (rem - 1) (mkTile (frontier_left d first) blank :: cur).
Hypothesis blank_right : ∀ rem cur lst,
  I rem cur → last cur = Some lst →
  board b !! frontier_right d lst = None →
  contains b (frontier_right d lst) = true →
  ¬ (rem = 0 ∧ (1 < length cur)%nat) →
  I (rem - 1) (cur ++ [mkTile (frontier_right d lst) blank]).
Hypothesis visit : ∀ ret vis cur rem,
  Q (ret, vis) → I rem cur → letters cur ∉ vis →
  Q (ret, {[ letters cur ]} ∪ vis).
Hypothesis emit : ∀ ret vis cur w,
  Q (ret, vis) → I 0 cur → letters cur ∉ vis → (1 < length cur)%nat →
  has_blank cur = true → Word_init cur = Ok w →
  Q (ret ++ [w], {[ letters cur ]} ∪ vis).

(** Whatever the search returns satisfies [Q] when the state it started
    from did and the sequence it started from satisfied [I]. *)
Lemma make_pattern_rec_invariant : ∀ fuel rem cur st st',
  I rem cur → Q st → make_pattern_rec fuel b d rem cur st = Ok st' → Q st'.
Proof.
  induction fuel as [|fuel IH]; intros rem cur [ret vis] st' HI HQ H; [done|].
  cbn [make_pattern_rec fst snd] in H.
  case_decide as Hvis; [by simplify_eq|].
  destruct (bool_decide (rem = 0) && bool_decide (1 < length cur)%nat) eqn:He.
  { apply emit_test in He as [-> Hlen].
    destruct (has_blank cur) eqn:Hb; [|simplify_eq; eauto].
    destruct (Word_init cur) as [w| |] eqn:HW; cbn in H; simplify_eq. eauto. }
  assert (Hne : ¬ (rem = 0 ∧ (1 < length cur)%nat)).
  { rewrite <- emit_test. congruence. }
  destruct (head cur) as [first|] eqn:Hh; [|done].
  destruct (last cur) as [lst|] eqn:Hl; [|done].
  destruct (occupied b (frontier_left d first)) eqn:Hol.
  { destruct (board_at b (frontier_left d first)) as [t|] eqn:Ht; [|done].
    apply board_at_Some in Ht. eapply IH; [| |exact H]; eauto. }
  apply occupied_false in Hol.
  destruct (occupied b (frontier_right d lst)) eqn:Hor.
  { destruct (board_at b (frontier_right d lst)) as [t|] eqn:Ht; [|done].
    apply board_at_Some in Ht. eapply IH; [| |exact H]; eauto. }
  apply occupied_false in Hor.
  match type of H with bind ?m _ = _ => destruct m as [st1| |] eqn:H1 end;
    [|done..].
  cbn [bind] in H.
  assert (Q st1) as HQ1.
  { destruct (contains b (frontier_left d first)) eqn:Hcl.
    - eapply IH; [| |exact H1]; eauto.
    - simplify_eq. eauto. }
  destruct (contains b (frontier_right d lst)) eqn:Hcr.
  - eapply IH; [| |exact H]; eauto.
  - by simplify_eq.
Qed.
End RecInvariant.

Lemma steps_app d t : ∀ cur,
  steps d (cur ++ [t]) ↔
  steps d cur ∧ ∀ lst, last cur = Some lst → pos t = step (pos lst) d.
Proof.
  induction cur as [|a [|c l] IH].
  - cbn. naive_solver.
  - cbn. split.
    + intros [Hp _]. split; [done|]. by intros lst [= <-].
    + intros [_ H]. split; [|done]. by apply H.
  - change ((a :: c :: l) ++ [t]) with (a :: (c :: l) ++ [t]).
    change (steps d (a :: (c :: l) ++ [t]))
      with (pos c = step (pos a) d ∧ steps d ((c :: l) ++ [t])).
    rewrite IH. cbn [steps]. rewrite !last_cons_cons. tauto.
Qed.

Lemma frontier_left_step d first t :
  pos t = frontier_left d first → pos first = step (pos t) (dvec d).
Proof.
  intros ->. unfold frontier_left, step, px, py. destruct (pos first). cbn.
  f_equal; lia.
Qed.

Lemma frontier_right_step d lst : frontier_right d lst = step (pos lst) (dvec d).
Proof. done. Qed.

Lemma segment_single b d t : contains b (pos t) = true → segment b d [t].
Proof. intros Hc. repeat split; [done|]. by constructor. Qed.

Lemma segment_left b d cur first t :
  segment b d cur → head cur = Some first →
  pos t = frontier_left d first → contains b (pos t) = true →
  segment b d (t :: cur).
Proof.
  intros (Hne & Hs & Hon) Hh Hp Hc. destruct cur as [|a l]; [done|].
  cbn in Hh. simplify_eq. repeat split; [done| |done|by constructor].
  by apply frontier_left_step.
Qed.

Lemma segment_right b d cur lst t :
  segment b d cur → last cur = Some lst →
  pos t = frontier_right d lst → contains b (pos t) = true →
  segment b d (cur ++ [t]).
Proof.
  intros (Hne & Hs & Hon) Hl Hp Hc. repeat split.
  - by destruct cur.
  - apply steps_app. split; [done|]. intros lst' Hl'. by simplify_eq.
  - apply Forall_app. split; [done|]. by constructor.
Qed.

(** A segment has at most as many tiles as the board has cells in a line. *)
Lemma segment_length b d cur :
  segment b d cur →
  (length cur ≤ S (Z.to_nat (width b) + Z.to_nat (height b)))%nat.
Proof.
  intros (Hne & Hs & Hon). destruct cur as [|a l]; [done|].
  destruct (lookup_lt_is_Some_2 (a :: l) (length l)) as [t Ht]; [cbn; lia|].
  pose proof (steps_lookup _ _ _ _ _ Hs Ht) as Hp.
  unfold on_board in Hon. rewrite Forall_forall in Hon.
  pose proof (Hon a ltac:(left)) as Ha.
  pose proof (Hon t (list_elem_of_lookup_2 _ _ _ Ht)) as Hct.
  apply contains_spec in Ha, Hct. rewrite Hp in Hct. cbn [fst snd] in Hct.
  cbn [length]. destruct d; cbn in Hct; lia.
Qed.

(** On a well-formed board the search returns, given fuel for the longest
    segment. *)
Lemma make_pattern_rec_total b d : wf_board b → ∀ fuel rem cur st,
  segment b d cur →
  (S (Z.to_nat (width b) + Z.to_nat (height b)) < fuel + length cur)%nat →
  ∃ st', make_pattern_rec fuel b d rem cur st = Ok st'.
Proof.
  intros Hwf. induction fuel as [|fuel IH]; intros rem cur [ret vis] Hseg Hf.
  { apply segment_length in Hseg. lia. }
  cbn [make_pattern_rec fst snd].
  case_decide as Hvis; [eauto|].
  destruct (bool_decide (rem = 0) && bool_decide (1 < length cur)%nat) eqn:He.
  { apply emit_test in He as [-> Hlen].
    destruct (has_blank cur); [|eauto].
    destruct (Word_init cur) as [w| |] eqn:HW; [cbn; eauto|exfalso..].
    all: assert (Word_init cur = Ok (mkWord cur (Some d))) as HW';
      [|congruence].
    all: apply Word_init_Ok; exists d; repeat split; [lia|apply Hseg]. }
  pose proof Hseg as (Hne & _ & _).
  destruct cur as [|a l] eqn:Hcur; [done|]. rewrite <- Hcur in *.
  assert (is_Some (last cur)) as [lst Hl].
  { rewrite Hcur. rewrite last_is_Some. done. }
  assert (head cur = Some a) as Hh by by rewrite Hcur.
  rewrite Hh, Hl.
  destruct (occupied b (frontier_left d a)) eqn:Hol.
  { apply occupied_true in Hol as [v Hv]. destruct (Hwf _ _ Hv) as (t & -> & Hp & Hc).
    apply board_at_Some in Hv as Hv'. rewrite Hv'. apply IH.
    - eapply segment_left; [done..|by rewrite Hp].
    - cbn [length]. lia. }
  destruct (occupied b (frontier_right d lst)) eqn:Hor.
  { apply occupied_true in Hor as [v Hv]. destruct (Hwf _ _ Hv) as (t & -> & Hp & Hc).
    apply board_at_Some in Hv as Hv'. rewrite Hv'. apply IH.
    - eapply segment_right; [done..|by rewrite Hp].
    - rewrite length_app. cbn [length]. lia. }
  destruct (contains b (frontier_left d a)) eqn:Hcl.
  - edestruct (IH (rem - 1) (mkTile (frontier_left d a) blank :: cur))
      as [st1 ->].
    { eapply segment_left; done. }
    { cbn [length]. lia. }
    cbn [bind]. destruct (contains b (frontier_right d lst)) eqn:Hcr; [|eauto].
    apply IH.
    + eapply segment_right; done.
    + rewrite length_app. cbn [length]. lia.
  - cbn [bind]. destruct (contains b (frontier_right d lst)) eqn:Hcr; [|eauto].
    apply IH.
    + eapply segment_right; done.
    + rewrite length_app. cbn [length]. lia.
Qed.

(** [make_patterns] concatenates the lists of its budget levels. *)
Lemma patterns_loop_levels fuel b d p (P : list Word → Prop) levels :
  (∀ r, ∃ scr, pattern_level fuel b d p r = Ok scr ∧ P scr) →
  ∀ ret, ∃ scrs,
    Forall2 (fun r scr => pattern_level fuel b d p r = Ok scr) levels scrs
    ∧ Forall P scrs
    ∧ patterns_loop fuel b d p levels ret = Ok (ret ++ concat scrs).
Proof.
  intros Hlev. induction levels as [|r levels IH]; intros ret.
  - exists []. cbn. rewrite app_nil_r. by repeat constructor.
  - destruct (Hlev r) as (scr & Hscr & HP).
    destruct (IH (ret ++ scr)) as (scrs & HF & HPs & Hloop).
    exists (scr :: scrs). cbn. rewrite Hscr. cbn. rewrite Hloop, <- app_assoc.
    by repeat constructor.
Qed.

Lemma make_patterns_levels fuel b p d mt (P : list Word → Prop) :
  contains b p = true → occupied b p = true →
  (∀ r, ∃ scr, pattern_level fuel b d p r = Ok scr ∧ P scr) →
  ∃ scrs,
    Forall2 (fun r scr => pattern_level fuel b d p r = Ok scr)
      (xrange 0 mt) scrs
    ∧ Forall P scrs
    ∧ make_patterns fuel b p d mt = Ok (concat scrs).
Proof.
  intros Hc Ho Hlev. unfold make_patterns. rewrite Hc, Ho. cbn [negb].
  apply (patterns_loop_levels _ _ _ _ P (xrange 0 mt) Hlev []).
Qed.

Lemma wf_anchor b p anchor :
  wf_board b → board b !! p = Some (Some anchor) →
  pos anchor = p ∧ contains b p = true ∧ occupied b p = true
  ∧ board_at b p = Some anchor.
Proof.
  intros Hwf Hl. destruct (Hwf _ _ Hl) as (t & [= <-] & Hp & Hc).
  repeat split; [done..| |by apply board_at_Some].
  apply occupied_true. eauto.
Qed.

(** One budget level returns on a well-formed board, and what it returns
    satisfies every invariant of the search. *)
Lemma pattern_level_invariant b d p anchor fuel r
    (I : Z → list BoardTile → Prop) (Q : pstate → Prop) :
  wf_board b → board b !! p = Some (Some anchor) → (enough b ≤ fuel)%nat →
  (∀ fuel rem cur st st',
     I rem cur → Q st → make_pattern_rec fuel b d rem cur st = Ok st' → Q st') →
  I r [anchor] → Q ([], ∅) →
  ∃ st, pattern_level fuel b d p r = Ok st.1 ∧ Q st.
Proof.
  intros Hwf Hl Hf Hinv HI HQ.
  destruct (wf_anchor _ _ _ Hwf Hl) as (Hp & Hc & Ho & Hat).
  unfold pattern_level. rewrite Hat.
  destruct (make_pattern_rec_total b d Hwf fuel r [anchor] ([], ∅)) as [st Hst].
  { apply segment_single. by rewrite Hp. }
  { unfold enough in Hf. cbn [length]. lia. }
  exists st. rewrite Hst. split; [done|]. eapply Hinv; done.
Qed.

Lemma steps_direction d d' (l : list BoardTile) :
  (2 ≤ length l)%nat → steps (dvec d) l → steps (dvec d') l → d = d'.
Proof.
  destruct l as [|a [|c l]]; cbn [length]; try lia.
  intros _ [H1 _] [H2 _]. rewrite H1 in H2. apply dvec_inj.
  destruct (pos a), (dvec d), (dvec d'). unfold step in H2. cbn in H2.
  simplify_eq. f_equal; lia.
Qed.

(** A pattern as the search must return it: a [Word] along [d] that holds
    the anchor tile. *)
Lemma valid_pattern_emit b d anchor cur w :
  segment b d cur → anchor ∈ cur → Word_init cur = Ok w →
  (2 ≤ length (tiles w))%nat ∧ direction w = Some d
  ∧ steps (dvec d) (tiles w) ∧ anchor ∈ tiles w.
Proof.
  intros (_ & Hs & _) Ha HW. apply Word_init_Ok in HW as (d' & -> & Hlen & Hs').
  cbn. assert (d = d') as <- by by eapply steps_direction. done.
Qed.

(** C9: on a well-formed board, from an occupied anchor, [make_patterns]
    returns, and every pattern it returns is a value [Word] accepts: it has
    two tiles or more, its direction is the requested one, consecutive
    tiles are one unit step of that direction apart, and the anchor tile,
    which sits at the anchor position with its letter, is among them. *)
Theorem make_patterns_valid_words (b : BoardState) (p : Position)
    (d : Direction) (max_tiles : Z) (fuel : nat) (anchor : BoardTile) :
  wf_board b → board b !! p = Some (Some anchor) → (enough b ≤ fuel)%nat →
  ∃ ps, make_patterns fuel b p d max_tiles = Ok ps
    ∧ Forall (fun w =>
        Word_init (tiles w) = Ok w
        ∧ (2 ≤ length (tiles w))%nat ∧ direction w = Some d
        ∧ steps (dvec d) (tiles w)
        ∧ anchor ∈ tiles w ∧ pos anchor = p) ps.
Proof.
  intros Hwf Hl Hf.
  destruct (wf_anchor _ _ _ Hwf Hl) as (Hp & Hc & Ho & Hat).
  set (φ := fun w : Word =>
    Word_init (tiles w) = Ok w
    ∧ (2 ≤ length (tiles w))%nat ∧ direction w = Some d
    ∧ steps (dvec d) (tiles w) ∧ anchor ∈ tiles w ∧ pos anchor = p).
  destruct (make_patterns_levels fuel b p d max_tiles (Forall φ) Hc Ho)
    as (scrs & _ & HP & Hmk).
  - intros r.
    destruct (pattern_level_invariant b d p anchor fuel r
      (fun _ cur => segment b d cur ∧ anchor ∈ cur)
      (fun st => Forall φ st.1) Hwf Hl Hf) as (st & Hst & HQ); [| | |eauto].
    + apply make_pattern_rec_invariant.
      * intros rem cur first t [Hseg Ha] Hh Hb.
        destruct (Hwf _ _ Hb) as (t' & [= <-] & Hpt & Hct).
        split; [|by right]. eapply segment_left; [done..|by rewrite Hpt].
      * intros rem cur lst t [Hseg Ha] Hh Hb.
        destruct (Hwf _ _ Hb) as (t' & [= <-] & Hpt & Hct).
        split; [|set_solver]. eapply segment_right; [done..|by rewrite Hpt].
      * intros rem cur first [Hseg Ha] Hh _ Hcl _.
        split; [|by right]. eapply segment_left; done.
      * intros rem cur lst [Hseg Ha] Hh _ Hcl _.
        split; [|set_solver]. eapply segment_right; done.
      * done.
      * intros ret vis cur w HQ [Hseg Ha] _ _ _ HW. cbn in *.
        apply Forall_app. split; [done|]. constructor; [|done].
        pose proof (valid_pattern_emit _ _ _ _ _ Hseg Ha HW) as (?&?&?&?).
        apply Word_init_Ok in HW as HW'. destruct HW' as (d' & -> & _).
        by repeat split.
    + split; [|set_solver]. apply segment_single. by rewrite Hp.
    + by cbn.
  - exists (concat scrs). split; [done|]. by apply Forall_concat.
Qed.

Lemma has_blank_cons t cur :
  has_blank (t :: cur) = bool_decide (letter t = blank) || has_blank cur.
Proof. done. Qed.

Lemma has_blank_app cur t :
  has_blank (cur ++ [t]) = has_blank cur || bool_decide (letter t = blank).
Proof. unfold has_blank. rewrite existsb_app. cbn. by rewrite orb_false_r. Qed.

Lemma has_blank_true cur : has_blank cur = true ↔ blank ∈ letters cur.
Proof.
  unfold has_blank, letters. rewrite existsb_exists, list_elem_of_fmap.
  split.
  - intros (t & Ht & Hb). apply bool_decide_eq_true in Hb.
    exists t. split; [done|]. by apply list_elem_of_In.
  - intros (t & Hb & Ht). exists t. split; [by apply list_elem_of_In|].
    by apply bool_decide_eq_true.
Qed.

(** At budget 0 nothing is emitted when no placed tile is a placeholder:
    either the budget is still 0 and the sequence holds no placeholder, or
    the budget has gone negative. *)
Lemma level_zero_invariant b d : no_blank_tiles b →
  ∀ fuel rem cur st st',
    (rem = 0 ∧ has_blank cur = false) ∨ rem < 0 → st.1 = [] →
    make_pattern_rec fuel b d rem cur st = Ok st' → st'.1 = [].
Proof.
  intros Hnb.
  apply (make_pattern_rec_invariant b d
    (fun rem cur => (rem = 0 ∧ has_blank cur = false) ∨ rem < 0)
    (fun st => st.1 = [])).
  - intros rem cur first t [[-> Hb]|?] _ Ht; [left|by right].
    split; [done|]. rewrite has_blank_cons, Hb, orb_false_r.
    apply bool_decide_eq_false. by eapply Hnb.
  - intros rem cur lst t [[-> Hb]|?] _ Ht; [left|by right].
    split; [done|]. rewrite has_blank_app, Hb.
    apply bool_decide_eq_false. by eapply Hnb.
  - intros rem cur first [[-> _]|?] _ _ _ _; right; lia.
  - intros rem cur lst [[-> _]|?] _ _ _ _; right; lia.
  - done.
  - intros ret vis cur w _ [[_ Hb]|?] _ _ Hb' _; [congruence|lia].
Qed.

(** C10, as stated, fails: next to a placed tile that carries the
    placeholder letter, the budget-0 level emits a pattern. *)
Lemma make_patterns_budget_one_blank_tile :
  let b := (put_word (BoardState_init 15 15)
              [mkTile (0, 0) "_"; mkTile (1, 0) "a"]).1 in
  wf_board b
  ∧ make_patterns (enough b) b (1, 0) ACROSS 1
    = Ok [mkWord [mkTile (0, 0) "_"; mkTile (1, 0) "a"] (Some ACROSS)].
Proof.
  split; [|vm_compute; reflexivity].
  eapply put_word_wf; [apply (wf_board_init 15 15)|apply surjective_pairing].
Qed.

(** C10, amended: on a well-formed board none of whose placed tiles carries
    the placeholder letter, from every occupied anchor and along either
    axis, [make_patterns] with a budget of 1 returns the empty list. *)
Theorem make_patterns_budget_one_empty (b : BoardState) (p : Position)
    (d : Direction) (fuel : nat) (anchor : BoardTile) :
  wf_board b → no_blank_tiles b →
  board b !! p = Some (Some anchor) → (enough b ≤ fuel)%nat →
  make_patterns fuel b p d 1 = Ok [].
Proof.
  intros Hwf Hnb Hl Hf.
  destruct (wf_anchor _ _ _ Hwf Hl) as (Hp & Hc & Ho & Hat).
  unfold make_patterns. rewrite Hc, Ho. cbn [negb].
  change (xrange 0 1) with [0]. cbn [patterns_loop].
  destruct (pattern_level_invariant b d p anchor fuel 0
    (fun rem cur => (rem = 0 ∧ has_blank cur = false) ∨ rem < 0)
    (fun st => st.1 = []) Hwf Hl Hf) as (st & -> & ->); [| |done|done].
  - by apply level_zero_invariant.
  - left. split; [done|]. rewrite has_blank_cons. cbn.
    rewrite orb_false_r. apply bool_decide_eq_false. by eapply Hnb.
Qed.

Lemma join_cons s ls : join (s :: ls) = String.app s (join ls).
Proof. done. Qed.

(** Joining letters of one character loses nothing. *)
Lemma join_inj l1 : ∀ l2,
  Forall (fun s => String.length s = 1%nat) l1 →
  Forall (fun s => String.length s = 1%nat) l2 →
  join l1 = join l2 → l1 = l2.
Proof.
  induction l1 as [|s1 l1 IH]; intros [|s2 l2] H1 H2 Hj; [done| | |].
  - apply Forall_cons in H2 as [Hs _]. destruct s2 as [|c [|]]; done.
  - apply Forall_cons in H1 as [Hs _]. destruct s1 as [|c [|]]; done.
  - apply Forall_cons in H1 as [Hs1 H1]. apply Forall_cons in H2 as [Hs2 H2].
    destruct s1 as [|c1 [|]]; try done. destruct s2 as [|c2 [|]]; try done.
    rewrite !join_cons in Hj. cbn in Hj. injection Hj as -> Hj.
    f_equal. by apply IH.
Qed.

Lemma level_state_invariant b d : ∀ fuel rem cur st st',
  (single_letters b → Forall one_char cur) → level_state b st →
  make_pattern_rec fuel b d rem cur st = Ok st' → level_state b st'.
Proof.
  apply (make_pattern_rec_invariant b d
    (fun _ cur => single_letters b → Forall one_char cur) (level_state b)).
  - intros rem cur first t HI _ Ht Hs. constructor; [by eapply Hs|auto].
  - intros rem cur lst t HI _ Ht Hs. apply Forall_app. split; [auto|].
    constructor; [by eapply Hs|done].
  - intros rem cur first HI _ _ _ _ Hs. constructor; [done|auto].
  - intros rem cur lst HI _ _ _ _ Hs. apply Forall_app. split; [auto|].
    by constructor.
  - intros ret vis cur rem (Hb & Hnd & Hv & Hone) _ _. repeat split; [done..| |done].
    intros w Hw. cbn. apply elem_of_union_r. by apply Hv.
  - intros ret vis cur w (Hb & Hnd & Hv & Hone) HI Hnv _ Hbl HW.
    apply Word_init_Ok in HW as (d' & -> & _). cbn [fst snd] in *.
    unfold level_state. cbn [fst snd tiles]. repeat split.
    + apply Forall_app. split; [done|]. by constructor.
    + rewrite fmap_app. apply NoDup_app. split; [done|]. split.
      * intros ls Hls Hin. apply list_elem_of_fmap in Hls as (w & -> & Hw).
        apply list_elem_of_singleton in Hin. cbn in Hin. apply Hnv.
        unfold letters at 1. rewrite <- Hin. by apply Hv.
      * cbn. apply NoDup_singleton.
    + intros w Hw. apply elem_of_app in Hw as [Hw|Hw].
      * apply elem_of_union_r. by apply Hv.
      * apply list_elem_of_singleton in Hw as ->. cbn. set_solver.
    + intros Hs. apply Forall_app. split; [auto|]. constructor; [|done].
      cbn. auto.
Qed.

(** C2, as stated, fails: [BoardTile] accepts the empty string as a letter.
    With such a tile at (3,0) and [a] at the anchor (5,0), budget level 2
    collects the sequence over (3,0)..(6,0), of letters ["", _, a, _], and
    the one over (4,0)..(6,0), of letters [_, a, _]: two patterns of one
    level whose joined letters are both [_a_]. *)
Lemma make_patterns_joined_letters_repeat :
  let b := (put_word (BoardState_init 15 15)
              [mkTile (3, 0) ""; mkTile (5, 0) "a"]).1 in
  wf_board b
  ∧ ∃ scr,
      pattern_level (enough b) b ACROSS (5, 0) 2 = Ok scr
      ∧ letters ∘ tiles <$> scr
        = [["_"; ""; "_"; "a"]; [""; "_"; "a"; "_"]; ["_"; "a"; "_"];
           ["a"; "_"; "_"]]
      ∧ join ∘ letters ∘ tiles <$> scr = ["__a"; "_a_"; "_a_"; "a__"]
      ∧ ¬ NoDup (join ∘ letters ∘ tiles <$> scr).
Proof.
  split.
  { eapply put_word_wf; [apply (wf_board_init 15 15)|apply surjective_pairing]. }
  eexists. split; [vm_compute; reflexivity|]. split; [reflexivity|].
  split; [reflexivity|]. cbn. intros Hnd.
  apply NoDup_cons in Hnd as [_ Hnd]. apply NoDup_cons in Hnd as [Hin _].
  apply Hin. left.
Qed.

(** C2, amended: on a well-formed board, from an occupied anchor,
    [make_patterns] returns the concatenation of the lists collected at the
    budget levels [0 .. max_tiles - 1]; every pattern in it holds the
    placeholder letter;
    within the list of one level no two patterns have the same tuple of
    letters, and, the letters placed on the board being single characters,
    no two have the same joined letters. *)
Theorem make_patterns_blank_and_distinct (b : BoardState) (p : Position)
    (d : Direction) (max_tiles : Z) (fuel : nat) (anchor : BoardTile) :
  wf_board b → board b !! p = Some (Some anchor) → (enough b ≤ fuel)%nat →
  ∃ scrs,
    Forall2 (fun r scr => pattern_level fuel b d p r = Ok scr)
      (xrange 0 max_tiles) scrs
    ∧ make_patterns fuel b p d max_tiles = Ok (concat scrs)
    ∧ Forall (fun w => blank ∈ letters (tiles w)) (concat scrs)
    ∧ Forall (fun scr =>
        NoDup (letters ∘ tiles <$> scr)
        ∧ (single_letters b → NoDup (join ∘ letters ∘ tiles <$> scr))) scrs.
Proof.
  intros Hwf Hl Hf.
  destruct (wf_anchor _ _ _ Hwf Hl) as (Hp & Hc & Ho & Hat).
  destruct (make_patterns_levels fuel b p d max_tiles
              (fun scr => ∃ vis, level_state b (scr, vis))
              Hc Ho) as (scrs & HF & HP' & Hmk).
  { intros r.
    destruct (pattern_level_invariant b d p anchor fuel r
      (fun _ cur => single_letters b → Forall one_char cur)
      (level_state b) Hwf Hl Hf) as ([scr vis] & Hst & HQ).
    - apply level_state_invariant.
    - intros Hs. constructor; [by eapply Hs|done].
    - repeat split; cbn; [done|apply NoDup_nil_2|set_solver|done].
    - exists scr. split; [done|]. by exists vis. }
  exists scrs. split; [done|]. split; [done|].
  split.
  - apply Forall_concat. eapply Forall_impl; [exact HP'|].
    intros scr (vis & Hb & _). cbn in Hb. eapply Forall_impl; [exact Hb|].
    intros w Hw. by apply has_blank_true.
  - eapply Forall_impl; [exact HP'|].
    intros scr (vis & Hb & Hnd & Hv & Hone). cbn in *. split; [done|].
    intros Hs. specialize (Hone Hs).
    change (join ∘ letters ∘ tiles) with (join ∘ (letters ∘ tiles)).
    rewrite list_fmap_compose. apply NoDup_fmap_2_strong; [|done].
    intros l1 l2 H1 H2 Hj.
    apply list_elem_of_fmap in H1 as (w1 & -> & Hw1).
    apply list_elem_of_fmap in H2 as (w2 & -> & Hw2).
    rewrite Forall_forall in Hone.
    apply join_inj; [| |done]; cbn; unfold letters; apply Forall_fmap;
      (eapply Forall_impl; [by apply Hone|done]).
Qed.

(** ** The example board *)

Lemma put_made_word_wf b word p d b' :
  wf_board b → put_made_word b word p d = Ok b' → wf_board b'.
Proof.
  unfold put_made_word. intros Hwf H.
  destruct (make_word word p d) as [w| |]; [|done..]. cbn [bind] in H.
  destruct (put_word b (tiles w)) as [b1 [[]|e|]] eqn:Hp; [|done..].
  simplify_eq. by eapply put_word_wf.
Qed.

Lemma get_example_board_Ok : get_example_board = Ok example_board.
Proof. reflexivity. Qed.

Lemma example_board_wf : wf_board example_board.
Proof.
  pose proof get_example_board_Ok as H. unfold get_example_board in H.
  repeat match type of H with
  | bind ?m _ = _ => destruct m as [?b| |] eqn:?Hb; [cbn [bind] in H|done..]
  end.
  eauto 10 using put_made_word_wf, wf_board_init.
Qed.

Lemma example_board_letters :
  no_blank_tiles example_board ∧ single_letters example_board.
Proof.
  assert (∀ p t, board example_board !! p = Some (Some t) →
            letter t ≠ blank ∧ String.length (letter t) = 1%nat) as H.
  { intros p t Hl. apply (map_Forall_lookup_1 (fun _ v =>
      match v with Some t => letter t ≠ blank ∧ String.length (letter t) = 1%nat
                 | None => True end) _ _ _) in Hl; [done|].
    apply map_Forall_to_list. vm_compute.
    repeat (constructor; [cbn; split; [intros [=]|reflexivity]|]).
    constructor. }
  split; intros p t Hl; by destruct (H _ _ Hl).
Qed.

(** ** Completeness of the pattern search *)

(** C1 fails on the code.  First board: tiles [a] at (0,0), (2,0) and (4,0),
    anchor (2,0), across, budget 3.  The sequence [a _ a _] over (2,0)..(5,0)
    is reached with two placeholders, yet no returned pattern has these
    tiles: [visited] is keyed by letters alone, and the letters [a _ a] were
    seen first over (0,0)..(2,0).  Second board: one tile [a] at (1,1),
    budget 1.  The sequence [_ a] is reached with one placeholder, yet the
    result is empty, the loop stopping at budget [max_tiles - 1]. *)
Theorem make_patterns_misses_reachable :
  let a x := mkTile (x, 0) "a" in
  let b := (put_word (BoardState_init 15 15) [a 0; a 2; a 4]).1 in
  let missed := [a 2; mkTile (3, 0) "_"; a 4; mkTile (5, 0) "_"] in
  let b' := (put_word (BoardState_init 15 15) [mkTile (1, 1) "a"]).1 in
  let missed' := [mkTile (0, 1) "_"; mkTile (1, 1) "a"] in
  (reachable b ACROSS (a 2) 2 missed
   ∧ ∃ ps, make_patterns (enough b) b (2, 0) ACROSS 3 = Ok ps
       ∧ Forall (fun w => tiles w ≠ missed) ps)
  ∧ (reachable b' ACROSS (mkTile (1, 1) "a") 1 missed'
     ∧ make_patterns (enough b') b' (1, 1) ACROSS 1 = Ok []).
Proof.
  intros a b missed b' missed'. split; split.
  - assert (reachable b ACROSS (a 2) 1 [a 2; mkTile (3, 0) "_"]) as H1.
    { by apply (reach_blank_right b ACROSS (a 2) 0 [a 2] (a 2));
        [constructor|..]. }
    assert (reachable b ACROSS (a 2) 1 [a 2; mkTile (3, 0) "_"; a 4]) as H2.
    { by apply (reach_absorb_right b ACROSS (a 2) 1
                  [a 2; mkTile (3, 0) "_"] (mkTile (3, 0) "_") (a 4)). }
    by apply (reach_blank_right b ACROSS (a 2) 1
                [a 2; mkTile (3, 0) "_"; a 4] (a 4)).
  - eexists. split; [vm_compute; reflexivity|].
    repeat constructor; discriminate.
  - by apply (reach_blank_left b' ACROSS _ 0 [mkTile (1, 1) "a"]
                (mkTile (1, 1) "a")); [constructor|..].
  - vm_compute. reflexivity.
Qed.

(** ** Instances on the example board *)

Lemma make_patterns_valid_words_witness :
  ∃ ps, make_patterns (enough example_board) example_board (0, 0) DOWN 3
        = Ok ps
    ∧ Forall (fun w =>
        Word_init (tiles w) = Ok w
        ∧ (2 ≤ length (tiles w))%nat ∧ direction w = Some DOWN
        ∧ steps (dvec DOWN) (tiles w)
        ∧ mkTile (0, 0) "c" ∈ tiles w ∧ pos (mkTile (0, 0) "c") = (0, 0)) ps.
Proof.
  apply (make_patterns_valid_words example_board (0, 0) DOWN 3
           (enough example_board) (mkTile (0, 0) "c")).
  - apply example_board_wf.
  - vm_compute. reflexivity.
  - lia.
Defined.

Lemma make_patterns_blank_and_distinct_witness :
  ∃ scrs,
    Forall2 (fun r scr =>
        pattern_level (enough example_board) example_board DOWN (0, 0) r
        = Ok scr) (xrange 0 3) scrs
    ∧ make_patterns (enough example_board) example_board (0, 0) DOWN 3
      = Ok (concat scrs)
    ∧ Forall (fun w => blank ∈ letters (tiles w)) (concat scrs)
    ∧ Forall (fun scr =>
        NoDup (letters ∘ tiles <$> scr)
        ∧ (single_letters example_board →
           NoDup (join ∘ letters ∘ tiles <$> scr))) scrs.
Proof.
  apply (make_patterns_blank_and_distinct example_board (0, 0) DOWN 3
           (enough example_board) (mkTile (0, 0) "c")).
  - apply example_board_wf.
  - vm_compute. reflexivity.
  - lia.
Defined.

Lemma make_patterns_budget_one_empty_witness :
  make_patterns (enough example_board) example_board (0, 0) DOWN 1 = Ok [].
Proof.
  apply (make_patterns_budget_one_empty example_board (0, 0) DOWN
           (enough example_board) (mkTile (0, 0) "c")).
  - apply example_board_wf.
  - apply example_board_letters.
  - vm_compute. reflexivity.
  - lia.
Defined.

(** ** Cross words *)

Lemma room_step b v cur :
  unit_vector v → contains b (step cur v) = true →
  0 ≤ room b v (step cur v) ∧ room b v (step cur v) = room b v cur - 1.
Proof.
  intros Hv Hc. apply contains_spec in Hc. destruct cur as [x y].
  destruct Hv as [->|[->|[->| ->]]]; unfold room, step in *; cbn in *;
    repeat case_bool_decide; try congruence; cbn; lia.
Qed.

Lemma room_bound b v cur :
  unit_vector v → contains b cur = true →
  (Z.to_nat (room b v cur) < enough b)%nat.
Proof.
  intros Hv Hc. apply contains_spec in Hc. destruct cur as [x y].
  unfold enough.
  destruct Hv as [->|[->|[->| ->]]]; unfold room; cbn in *;
    repeat case_bool_decide; try congruence; cbn; lia.
Qed.

Lemma all_tiles_Some r : all_tiles (Some <$> r) = Ok r.
Proof. induction r as [|t r IH]; [done|]. cbn. by rewrite IH. Qed.

(** The walk returns the run ahead of [cur]. *)
Lemma fan_run b v : wf_board b → unit_vector v → ∀ fuel cur,
  (Z.to_nat (room b v cur) < fuel)%nat →
  ∃ r, fan fuel b v cur = Ok (Some <$> r) ∧ run b v cur r.
Proof.
  intros Hwf Hv. induction fuel as [|fuel IH]; intros cur Hf; [lia|].
  cbn [fan]. destruct (contains b (step cur v)) eqn:Hc; cbn [negb orb].
  2: { exists []. split; [done|]. constructor. by left. }
  destruct (occupied b (step cur v)) eqn:Ho; cbn [negb].
  2: { exists []. split; [done|]. constructor. right.
       by apply occupied_false. }
  apply occupied_true in Ho as [o Ho].
  destruct (Hwf _ _ Ho) as (t & -> & Hp & _).
  destruct (room_step b v cur Hv Hc) as [H0 H1].
  destruct (IH (step cur v)) as (r & -> & Hr); [lia|].
  exists (t :: r). cbn [bind]. split.
  - unfold board_at. by rewrite Ho.
  - by constructor.
Qed.

Lemma run_det b v cur r1 : run b v cur r1 → ∀ r2, run b v cur r2 → r1 = r2.
Proof.
  induction 1 as [cur Hs|cur t rest Hc Hl Hp Hr IH]; intros r2 H2.
  - inversion H2 as [|? ? ? Hc' Hl']; subst; [done|]. destruct Hs; congruence.
  - inversion H2 as [? Hs|? t' ? Hc' Hl' Hp' Hr']; subst.
    + destruct Hs; congruence.
    + f_equal; [congruence|]. by apply IH.
Qed.

(** *** Sorting *)

Section Sorting.
Context {A : Type} (key : A → Z).

Lemma insert_by_perm x l : insert_by key x l ≡ₚ x :: l.
Proof.
  induction l as [|y l IH]; [done|]. cbn.
  destruct (key x <=? key y); [done|]. rewrite IH. apply perm_swap.
Qed.

Lemma sorted_by_cons x l :
  sorted_by key (x :: l) = insert_by key x (sorted_by key l).
Proof. done. Qed.

Lemma sorted_by_perm l : sorted_by key l ≡ₚ l.
Proof.
  induction l as [|x l IH]; [done|]. rewrite sorted_by_cons, insert_by_perm.
  by constructor.
Qed.

Lemma insert_by_sorted x l :
  StronglySorted (fun a c => key a ≤ key c) l →
  StronglySorted (fun a c => key a ≤ key c) (insert_by key x l).
Proof.
  induction 1 as [|y l Hs IH Hy]; cbn; [repeat constructor|].
  destruct (key x <=? key y) eqn:Hle.
  - apply Z.leb_le in Hle. constructor; [by constructor|].
    constructor; [done|]. eapply Forall_impl; [exact Hy|]. cbn. lia.
  - apply Z.leb_gt in Hle. constructor; [done|].
    rewrite insert_by_perm. constructor; [lia|done].
Qed.

Lemma sorted_by_sorted l :
  StronglySorted (fun a c => key a ≤ key c) (sorted_by key l).
Proof.
  induction l as [|x l IH]; [constructor|]. rewrite sorted_by_cons.
  by apply insert_by_sorted.
Qed.

(** In an ascending list the last element has the greatest key. *)
Lemma sorted_last_max l m :
  StronglySorted (fun a c => key a ≤ key c) l → last l = Some m →
  Forall (fun x => key x ≤ key m) l.
Proof.
  induction 1 as [|y l Hs IH Hy]; intros Hl; [constructor|].
  destruct l as [|z l].
  - cbn in Hl. simplify_eq. by repeat constructor.
  - rewrite last_cons_cons in Hl. specialize (IH Hl). constructor; [|done].
    rewrite Forall_forall in Hy. apply Hy. by eapply last_Some_elem_of.
Qed.

Lemma insert_by_middle x l1 l2 :
  Forall (fun y => key y < key x) l1 → Forall (fun y => key x ≤ key y) l2 →
  insert_by key x (l1 ++ l2) = l1 ++ x :: l2.
Proof.
  induction 1 as [|y l1 Hy _ IH]; intros H2; cbn.
  - destruct H2 as [|y l2 Hy _]; [done|]. cbn.
    by rewrite (proj2 (Z.leb_le _ _) Hy).
  - rewrite (proj2 (Z.leb_gt _ _) Hy). by rewrite IH.
Qed.

Lemma sorted_by_descending l :
  StronglySorted (fun a c => key c < key a) l → sorted_by key l = rev l.
Proof.
  induction 1 as [|x l Hs IH Hx]; [done|]. rewrite sorted_by_cons, IH.
  cbn [rev]. rewrite <- (app_nil_r (rev l)) at 1. rewrite insert_by_middle; [done| |done].
  by apply Forall_rev.
Qed.

(** An ascending list followed by a descending list of smaller keys sorts
    to the second reversed, then the first. *)
Lemma sorted_by_ascending_descending inc dec :
  StronglySorted (fun a c => key a < key c) inc →
  StronglySorted (fun a c => key c < key a) dec →
  Forall (fun x => Forall (fun y => key y < key x) dec) inc →
  sorted_by key (inc ++ dec) = rev dec ++ inc.
Proof.
  intros Hi Hd. induction Hi as [|x inc Hs IH Hx]; intros Hlt.
  - rewrite app_nil_r. by apply sorted_by_descending.
  - apply Forall_cons in Hlt as [Hxd Hlt].
    change ((x :: inc) ++ dec) with (x :: inc ++ dec).
    rewrite sorted_by_cons, (IH Hlt). apply insert_by_middle; [by apply Forall_rev|].
    eapply Forall_impl; [exact Hx|]. cbn. lia.
Qed.
End Sorting.

(** *** The run through a tile *)

Lemma sort_key_coord d t : sort_key d t = coord d (pos t).
Proof. done. Qed.

Lemma coord_ahead d p : coord d (step p (dvec d)) = coord d p + 1.
Proof. destruct d, p; unfold coord; case_decide; try done; cbn; lia. Qed.

Lemma coord_behind d p : coord d (step p (opposite d)) = coord d p - 1.
Proof. destruct d, p; unfold coord; case_decide; try done; cbn; lia. Qed.

(** Ahead of [cur] the coordinates ascend from that of [cur]. *)
Lemma run_ahead_sorted b d cur r :
  run b (dvec d) cur r →
  StronglySorted (fun x y => sort_key d x < sort_key d y) r
  ∧ Forall (fun t => coord d cur < sort_key d t) r.
Proof.
  induction 1 as [cur Hs|cur t rest Hc Hl Hp Hr [IHs IHf]].
  - split; constructor.
  - rewrite coord_ahead in IHf.
    assert (sort_key d t = coord d cur + 1) as Ht.
    { by rewrite sort_key_coord, Hp, coord_ahead. }
    split.
    + constructor; [done|]. eapply Forall_impl; [exact IHf|]. cbn. lia.
    + constructor; [lia|]. eapply Forall_impl; [exact IHf|]. cbn. lia.
Qed.

(** Behind [cur] they descend from it. *)
Lemma run_behind_sorted b d cur r :
  run b (opposite d) cur r →
  StronglySorted (fun x y => sort_key d y < sort_key d x) r
  ∧ Forall (fun t => sort_key d t < coord d cur) r.
Proof.
  induction 1 as [cur Hs|cur t rest Hc Hl Hp Hr [IHs IHf]].
  - split; constructor.
  - rewrite coord_behind in IHf.
    assert (sort_key d t = coord d cur - 1) as Ht.
    { by rewrite sort_key_coord, Hp, coord_behind. }
    split.
    + constructor; [done|]. eapply Forall_impl; [exact IHf|]. cbn. lia.
    + constructor; [lia|]. eapply Forall_impl; [exact IHf|]. cbn. lia.
Qed.

Lemma unit_vector_dvec d : unit_vector (dvec d).
Proof. destruct d; unfold unit_vector; cbn; auto. Qed.

Lemma unit_vector_opposite d : unit_vector (opposite d).
Proof. destruct d; unfold unit_vector; cbn; auto. Qed.

(** What [__get_intersecting_word_for_pos] returns for a tile on the board:
    nothing when both runs are empty, else the run behind reversed, the
    tile, and the run ahead. *)
Lemma get_intersecting_word_for_pos_spec b tile d fuel :
  wf_board b → contains b (pos tile) = true → (enough b ≤ fuel)%nat →
  ∃ bwd fwd,
    run b (opposite d) (pos tile) bwd ∧ run b (dvec d) (pos tile) fwd
    ∧ get_intersecting_word_for_pos fuel b tile d
      = Ok (match bwd, fwd with
            | [], [] => None
            | _, _ => Some (rev bwd ++ tile :: fwd)
            end).
Proof.
  intros Hwf Hc Hf. unfold get_intersecting_word_for_pos.
  assert (is_direction (dvec d) = true) as ->.
  { apply is_direction_spec. eauto. }
  rewrite Hc. cbn [negb].
  destruct (fan_run b (dvec d) Hwf (unit_vector_dvec d) fuel (pos tile))
    as (fwd & -> & Hfwd).
  { pose proof (room_bound b (dvec d) (pos tile) (unit_vector_dvec d) Hc). lia. }
  destruct (fan_run b (opposite d) Hwf (unit_vector_opposite d) fuel (pos tile))
    as (bwd & -> & Hbwd).
  { pose proof (room_bound b (opposite d) (pos tile)
                  (unit_vector_opposite d) Hc). lia. }
  exists bwd, fwd. split; [done|]. split; [done|]. cbn [bind].
  case_decide as Hlen.
  - cbn [length] in Hlen. rewrite length_app, !length_fmap in Hlen.
    destruct bwd, fwd; cbn in Hlen; first [done|lia].
  - rewrite <- fmap_app, <- fmap_cons, all_tiles_Some. cbn [bind].
    destruct (run_ahead_sorted _ _ _ _ Hfwd) as [Hsf Hff].
    destruct (run_behind_sorted _ _ _ _ Hbwd) as [Hsb Hfb].
    change (tile :: fwd ++ bwd) with ((tile :: fwd) ++ bwd).
    rewrite sorted_by_ascending_descending.
    + destruct bwd, fwd; first [done|cbn in Hlen; lia].
    + constructor; [done|]. by rewrite sort_key_coord.
    + done.
    + constructor.
      * eapply Forall_impl; [exact Hfb|]. cbn. by rewrite sort_key_coord.
      * rewrite Forall_forall. intros x Hx. rewrite Forall_forall in Hff.
        specialize (Hff x Hx). eapply Forall_impl; [exact Hfb|]. cbn. lia.
Qed.

Lemma intersecting_loop_spec b d fuel : wf_board b → (enough b ≤ fuel)%nat →
  ∀ word words, on_board b word →
  ∃ runs : list (list BoardTile * list BoardTile),
    Forall2 (fun tile r => run b (opposite d) (pos tile) r.1
                           ∧ run b (dvec d) (pos tile) r.2) word runs
    ∧ intersecting_loop fuel b d word words
      = Ok (words ++ omap (fun tr => cross_word tr.1 tr.2.1 tr.2.2)
                      (zip word runs)).
Proof.
  intros Hwf Hf. induction word as [|tile word IH]; intros words Hon.
  - exists []. split; [constructor|]. cbn. by rewrite app_nil_r.
  - apply Forall_cons in Hon as [Hc Hon]. cbn [intersecting_loop].
    destruct (get_intersecting_word_for_pos_spec b tile d fuel Hwf Hc Hf)
      as (bwd & fwd & Hb & Hfw & ->). cbn [bind].
    destruct bwd as [|t1 bwd], fwd as [|t2 fwd].
    all: match goal with
         | |- context [intersecting_loop _ _ _ _ ?ws] =>
             destruct (IH ws Hon) as (runs & HF & ->)
         end.
    all: eexists ((_, _) :: runs); split; [by constructor|].
    all: cbn [zip zip_with omap list_omap cross_word fst snd].
    all: by rewrite <- ?app_assoc.
Qed.

(** C4: on a well-formed board, for a word along axis [A] whose tiles are
    all on the board, [get_intersecting_words] returns, in the order of the
    tiles, one string for each tile that has a placed tile next to it along
    the axis orthogonal to [A]: the joined letters of the run of placed
    tiles behind it (reversed, so in ascending coordinate), the tile itself,
    and the run ahead of it, each run ending at the first empty or
    off-board cell.  A tile with neither neighbour contributes nothing, and
    a word none of whose tiles has one yields the empty list. *)
Theorem get_intersecting_words_runs (b : BoardState) (w : Word)
    (A : Direction) (fuel : nat) :
  wf_board b → direction w = Some A → on_board b (tiles w) →
  (enough b ≤ fuel)%nat →
  ∃ runs : list (list BoardTile * list BoardTile),
    Forall2 (fun tile r =>
        run b (opposite (orthogonal A)) (pos tile) r.1
        ∧ run b (dvec (orthogonal A)) (pos tile) r.2) (tiles w) runs
    ∧ get_intersecting_words fuel b w
      = Ok (omap (fun tr => cross_word tr.1 tr.2.1 tr.2.2)
              (zip (tiles w) runs))
    ∧ (Forall (fun tile =>
          run b (opposite (orthogonal A)) (pos tile) []
          ∧ run b (dvec (orthogonal A)) (pos tile) []) (tiles w) →
       get_intersecting_words fuel b w = Ok []).
Proof.
  intros Hwf Hd Hon Hf. unfold get_intersecting_words. rewrite Hd.
  destruct (intersecting_loop_spec b (orthogonal A) fuel Hwf Hf (tiles w) [] Hon)
    as (runs & HF & Hloop).
  exists runs. split; [done|]. split; [done|]. intros Hno. rewrite Hloop.
  f_equal. cbn [app]. clear Hloop Hon Hd.
  induction HF as [|tile [bwd fwd] word runs [Hb Hfw] HF IH]; [done|].
  apply Forall_cons in Hno as [[Hb' Hf'] Hno]. cbn [fst snd] in *.
  rewrite (run_det _ _ _ _ Hb _ Hb'), (run_det _ _ _ _ Hfw _ Hf'). cbn.
  by apply IH.
Qed.

(** ** The whole-board search *)

Lemma elem_of_xrange x lo hi : x ∈ xrange lo hi ↔ lo ≤ x < hi.
Proof. unfold xrange. rewrite elem_of_seqZ. lia. Qed.

(** The anchors are the occupied cells of columns [0 .. width - 1] and rows
    [0 .. height - 1]. *)
Lemma elem_of_anchors b p :
  p ∈ anchors b ↔
  0 ≤ p.1 < width b ∧ 0 ≤ p.2 < height b ∧ is_Some (board b !! p).
Proof.
  unfold anchors. rewrite list_elem_of_bind. split.
  - intros (i & Hp & Hi). apply list_elem_of_filter in Hp as [Ho Hp].
    apply list_elem_of_fmap in Hp as (j & -> & Hj).
    apply elem_of_xrange in Hi, Hj. apply occupied_true in Ho. done.
  - intros (Hi & Hj & Ho). exists p.1. rewrite elem_of_xrange. split; [|done].
    apply list_elem_of_filter. split; [by apply occupied_true|].
    apply list_elem_of_fmap. exists p.2. rewrite elem_of_xrange.
    by destruct p.
Qed.

Section SearchFacts.
Context (find_matches : option string → string → result (list string)).
Context (wordlist_has : string → result bool).
Context (score_word : Word → Z).

Abbreviation found_at := (searched find_matches wordlist_has).
Abbreviation scanj := (scan_j find_matches wordlist_has).
Abbreviation scani := (scan_i find_matches wordlist_has).
Abbreviation ranked := (get_best_words find_matches wordlist_has score_word).

Lemma scan_j_spec fuel b gutter i js : ∀ ret l,
  scanj fuel b gutter i js ret = Ok l ↔
  ∃ found,
    Forall2 (found_at fuel b gutter)
      (filter (fun p => occupied b p = true) ((fun j => (i, j)) <$> js)) found
    ∧ l = ret ++ concat found.
Proof.
  induction js as [|j js IH]; intros ret l.
  - cbn. split.
    + intros [= <-]. exists []. split; [constructor|]. by rewrite app_nil_r.
    + intros (found & HF & ->). inversion HF. by rewrite app_nil_r.
  - cbn [scan_j fmap list_fmap]. rewrite filter_cons.
    destruct (occupied b (i, j)) eqn:Ho; cbn [negb].
    + rewrite decide_True by done. split.
      * destruct (words_for_pos _ _ fuel b (i, j) ACROSS gutter)
          as [wa| |] eqn:Ha; [|done..].
        destruct (words_for_pos _ _ fuel b (i, j) DOWN gutter)
          as [wd| |] eqn:Hd; [|done..].
        cbn [bind]. intros H. apply IH in H as (found & HF & ->).
        exists ((wa ++ wd) :: found). split.
        -- constructor; [|done]. by exists wa, wd.
        -- cbn. by rewrite !app_assoc.
      * intros (found & HF & ->).
        inversion HF as [|? ws ? found' (wa & wd & Ha & Hd & ->) HF']; subst.
        rewrite Ha, Hd. cbn [bind]. apply IH. exists found'. split; [done|].
        cbn. by rewrite !app_assoc.
    + rewrite decide_False by congruence. apply IH.
Qed.

Lemma scan_i_spec fuel b gutter cols : ∀ ret l,
  scani fuel b gutter cols ret = Ok l ↔
  ∃ found,
    Forall2 (found_at fuel b gutter)
      (i ← cols;
       filter (fun p => occupied b p = true)
         ((fun j => (i, j)) <$> xrange 0 (height b))) found
    ∧ l = ret ++ concat found.
Proof.
  induction cols as [|i cols IH]; intros ret l.
  - cbn. split.
    + intros [= <-]. exists []. split; [constructor|]. by rewrite app_nil_r.
    + intros (found & HF & ->). inversion HF. by rewrite app_nil_r.
  - cbn [scan_i]. rewrite bind_cons. split.
    + destruct (scanj fuel b gutter i (xrange 0 (height b)) ret)
        as [ret'| |] eqn:Hj; [|done..].
      cbn [bind]. intros H. apply IH in H as (found2 & HF2 & ->).
      apply scan_j_spec in Hj as (found1 & HF1 & ->).
      exists (found1 ++ found2). split; [by apply Forall2_app|].
      by rewrite concat_app, app_assoc.
    + intros (found & HF & ->).
      apply Forall2_app_inv_l in HF as (found1 & found2 & HF1 & HF2 & ->).
      assert (scanj fuel b gutter i (xrange 0 (height b)) ret
              = Ok (ret ++ concat found1)) as ->.
      { apply scan_j_spec. by exists found1. }
      cbn [bind]. apply IH. exists found2. split; [done|].
      by rewrite concat_app, app_assoc.
Qed.

(** [get_best_words] returns exactly when [words_for_pos] returns for every
    anchor in both directions, and then it returns the candidates found,
    sorted by score. *)
Lemma get_best_words_spec fuel b gutter l :
  ranked fuel b gutter = Ok l ↔
  ∃ found,
    Forall2 (found_at fuel b gutter) (anchors b) found
    ∧ l = sorted_by score_word (concat found).
Proof.
  unfold get_best_words. split.
  - destruct (scani fuel b gutter (xrange 0 (width b)) []) as [ret| |] eqn:Hi;
      [|done..].
    cbn [bind]. intros [= <-]. apply scan_i_spec in Hi as (found & HF & ->).
    by exists found.
  - intros (found & HF & ->).
    assert (scani fuel b gutter (xrange 0 (width b)) [] = Ok (concat found))
      as ->; [|done].
    apply scan_i_spec. by exists found.
Qed.
End SearchFacts.

(** C3, as stated, fails: a tile in row [height] is on the board and held by
    it, yet it is no anchor.  With a matcher that raises whenever it is
    asked, the search from that tile raises and [get_best_words] returns
    the empty list: the tile is never searched. *)
Lemma get_best_words_skips_last_row :
  let b := (manually_put_tile (BoardState_init 15 15) (mkTile (3, 15) "a")).1 in
  let matcher := fun (_ : option string) (_ : string) =>
                   @Raise (list string) TypeError in
  let lexicon := fun _ : string => Ok true in
  contains b (3, 15) = true ∧ occupied b (3, 15) = true
  ∧ anchors b = []
  ∧ words_for_pos matcher lexicon (enough b) b (3, 15) ACROSS "ab"
    = Raise TypeError
  ∧ get_best_words matcher lexicon (fun _ => 0) (enough b) b "ab" = Ok [].
Proof. vm_compute. repeat split. Qed.

(** C3, amended: the anchors of [get_best_words] are exactly the occupied
    coordinates with [0 <= x < width] and [0 <= y < height]; it returns when
    the search from every anchor returns in both directions, and then it
    returns the candidates (per anchor those across, then those down),
    sorted ascending by score, so that the last element, the one
    [getNextBestWord] takes, has the greatest score. *)
Theorem get_best_words_ranked
    (find_matches : option string → string → result (list string))
    (wordlist_has : string → result bool) (score_word : Word → Z)
    (fuel : nat) (b : BoardState) (gutter : string) :
  (∀ p, p ∈ anchors b ↔
        0 ≤ p.1 < width b ∧ 0 ≤ p.2 < height b ∧ is_Some (board b !! p))
  ∧ ∀ l,
      get_best_words find_matches wordlist_has score_word fuel b gutter = Ok l
      ↔ ∃ found,
          Forall2 (searched find_matches wordlist_has fuel b gutter)
            (anchors b) found
          ∧ l = sorted_by score_word (concat found)
          ∧ l ≡ₚ concat found
          ∧ StronglySorted (fun x y => score_word x ≤ score_word y) l
          ∧ (∀ best, last l = Some best →
               Forall (fun w => score_word w ≤ score_word best) l)
          ∧ ∀ hd,
              (getNextBestWord find_matches wordlist_has score_word fuel
                 (mkDelegate b None hd) gutter).2
              = Ok ((fun best =>
                       filter (fun i => occupied b (pos i) = false)
                         (tiles best)) <$> last l).
Proof.
  split; [apply elem_of_anchors|]. intros l.
  rewrite get_best_words_spec. split.
  - intros (found & HF & ->). exists found.
    assert (get_best_words find_matches wordlist_has score_word fuel b gutter
            = Ok (sorted_by score_word (concat found))) as Hg.
    { apply get_best_words_spec. by exists found. }
    repeat split; [done|apply sorted_by_perm|apply sorted_by_sorted| |].
    + intros best Hl. eapply sorted_last_max; [apply sorted_by_sorted|done].
    + intros hd. unfold getNextBestWord. cbn [best_words board_state].
      rewrite Hg. cbn [snd]. by destruct (last _).
  - intros (found & HF & -> & _). by exists found.
Qed.

Lemma get_intersecting_words_runs_witness :
  ∃ runs : list (list BoardTile * list BoardTile),
    Forall2 (fun tile r =>
        run example_board (opposite (orthogonal DOWN)) (pos tile) r.1
        ∧ run example_board (dvec (orthogonal DOWN)) (pos tile) r.2)
      [mkTile (1, 0) "a"; mkTile (1, 1) "b"] runs
    ∧ get_intersecting_words (enough example_board) example_board
        (mkWord [mkTile (1, 0) "a"; mkTile (1, 1) "b"] (Some DOWN))
      = Ok (omap (fun tr => cross_word tr.1 tr.2.1 tr.2.2)
              (zip [mkTile (1, 0) "a"; mkTile (1, 1) "b"] runs))
    ∧ (Forall (fun tile =>
          run example_board (opposite (orthogonal DOWN)) (pos tile) []
          ∧ run example_board (dvec (orthogonal DOWN)) (pos tile) [])
         [mkTile (1, 0) "a"; mkTile (1, 1) "b"] →
       get_intersecting_words (enough example_board) example_board
         (mkWord [mkTile (1, 0) "a"; mkTile (1, 1) "b"] (Some DOWN))
       = Ok []).
Proof.
  apply (get_intersecting_words_runs example_board
           (mkWord [mkTile (1, 0) "a"; mkTile (1, 1) "b"] (Some DOWN))
           DOWN (enough example_board)).
  - apply example_board_wf.
  - reflexivity.
  - repeat constructor.
  - lia.
Defined.

(** ** Soundness of the pattern search *)

(** X1: Every pattern collected at budget level [r] is a sequence reachable from
    the anchor with exactly [r] placeholders. *)
Theorem pattern_level_reachable (b : BoardState) (p : Position)
    (d : Direction) (r : Z) (fuel : nat) (anchor : BoardTile) :
  wf_board b → board b !! p = Some (Some anchor) → (enough b ≤ fuel)%nat →
  ∃ scr, pattern_level fuel b d p r = Ok scr
    ∧ Forall (fun w => reachable b d anchor (Z.to_nat r) (tiles w)) scr.
Proof.
  intros Hwf Hl Hf.
  destruct (pattern_level_invariant b d p anchor fuel r
    (fun rem cur => ∃ n, reachable b d anchor n cur ∧ rem = r - Z.of_nat n)
    (fun st => Forall (fun w => reachable b d anchor (Z.to_nat r) (tiles w))
                 st.1)
    Hwf Hl Hf) as (st & Hst & HQ); [| | |eauto].
  - apply make_pattern_rec_invariant.
    + intros rem cur first t (n & Hr & ->) Hh Ht. exists n.
      split; [by eapply reach_absorb_left|done].
    + intros rem cur lst t (n & Hr & ->) Hh Ht. exists n.
      split; [by eapply reach_absorb_right|done].
    + intros rem cur first (n & Hr & ->) Hh Hn Hc _. exists (S n).
      split; [by apply reach_blank_left|lia].
    + intros rem cur lst (n & Hr & ->) Hh Hn Hc _. exists (S n).
      split; [by apply reach_blank_right|lia].
    + done.
    + intros ret vis cur w HQ (n & Hr & Hn) _ _ _ HW. cbn [fst].
      apply Forall_app. split; [done|]. constructor; [|done].
      apply Word_init_Ok in HW as (d' & -> & _). cbn [tiles].
      by replace (Z.to_nat r) with n by lia.
  - exists 0%nat. split; [constructor|lia].
  - by cbn.
Qed.

Lemma pattern_level_reachable_witness :
  ∃ scr, pattern_level (enough example_board) example_board DOWN (0, 0) 2
         = Ok scr
    ∧ Forall (fun w => reachable example_board DOWN (mkTile (0, 0) "c")
                         (Z.to_nat 2) (tiles w)) scr.
Proof.
  apply (pattern_level_reachable example_board (0, 0) DOWN 2
           (enough example_board) (mkTile (0, 0) "c")).
  - apply example_board_wf.
  - vm_compute. reflexivity.
  - lia.
Defined.

(** * Further properties *)

(** ** Directions and words *)

(** X2: [make_direction] returns exactly on the tuples [is_direction] accepts,
    and gives back the direction that holds the tuple. *)
Theorem make_direction_is_direction (v : Position) :
  (is_direction v = true → ∃ d, make_direction v = Ok d ∧ dvec d = v)
  ∧ (is_direction v = false →
     make_direction v = Raise (ValueError "passed tuple is not a direction" []))
  ∧ ∀ d, is_direction (dvec d) = true ∧ make_direction (dvec d) = Ok d.
Proof.
  split; [|split].
  - intros H. apply is_direction_spec in H as [d ->]. exists d.
    by rewrite make_direction_dvec.
  - unfold is_direction, make_direction. intros H.
    apply orb_false_iff in H as [H1 H2]. cbn in H1, H2. by rewrite H1, H2.
  - intros d. split; [apply is_direction_spec; eauto|apply make_direction_dvec].
Qed.

(** X3: Stepping along a direction and then along its opposite comes back, and
    [orthogonal] swaps the two directions. *)
Theorem opposite_undoes_step (d : Direction) (p : Position) :
  step (step p (dvec d)) (opposite d) = p
  ∧ step (step p (opposite d)) (dvec d) = p
  ∧ orthogonal (orthogonal d) = d ∧ orthogonal d ≠ d.
Proof.
  destruct d, p as [x y]; unfold step; cbn; repeat split; try done;
    f_equal; lia.
Qed.

(** X4: [sliding_window(lst, width)] yields [len(lst) - width + 1] windows (none
    when that is not positive), each of exactly [width] elements, the
    [i]-th holding [lst[i .. i + width - 1]]. *)
Theorem sliding_window_shape {A} (lst : list A) (w : nat) :
  length (sliding_window lst w) = (length lst + 1 - w)%nat
  ∧ Forall (fun win => length win = w) (sliding_window lst w)
  ∧ ∀ i win, sliding_window lst w !! i = Some win →
      ∀ j, (j < w)%nat → win !! j = lst !! (i + j)%nat.
Proof.
  unfold sliding_window. split; [|split].
  - by rewrite length_fmap, length_seq.
  - apply Forall_fmap, Forall_forall. intros i Hi. apply elem_of_seq in Hi.
    cbn. rewrite length_take, length_drop. lia.
  - intros i win Hi j Hj. rewrite list_lookup_fmap in Hi.
    destruct (seq 0 (length lst + 1 - w) !! i) as [k|] eqn:Hk; [|done].
    apply lookup_seq in Hk as [-> _]. cbn in Hi. injection Hi as <-.
    rewrite lookup_take_lt by done. by rewrite lookup_drop.
Qed.

Lemma Word_init_cases l :
  (2 ≤ length l)%nat →
  (∃ w, Word_init l = Ok w)
  ∨ Word_init l = Raise (ValueError "invalid word" []).
Proof.
  intros Hlen. unfold Word_init. rewrite decide_False by lia.
  destruct l as [|a [|c l]]; cbn in Hlen; try lia.
  rewrite sliding_window_cons. cbn [validate_direction].
  destruct (is_direction (diff_pos (pos c) (pos a))) eqn:Hdir; [|auto].
  apply is_direction_spec in Hdir as [d Hd]. rewrite Hd, make_direction_dvec.
  cbn [bind]. destruct (validate_direction_fixed d l c) as ([] & -> & _);
    cbn; eauto.
Qed.

(** X5: [Word(lst)]: fewer than two tiles raise the single-letter error; two or
    more give the word, with the direction of its steps, when consecutive
    tiles are one unit step of one direction apart, and raise "invalid
    word" otherwise (a diagonal, a gap, a repeated position). *)
Theorem Word_init_outcome (lst : list BoardTile) :
  ((length lst < 2)%nat →
   Word_init lst
   = Raise (ValueError "invalid word: no single-letter words" []))
  ∧ ((2 ≤ length lst)%nat →
     (∃ d, steps (dvec d) lst ∧ Word_init lst = Ok (mkWord lst (Some d)))
     ∨ ((∀ d, ¬ steps (dvec d) lst)
        ∧ Word_init lst = Raise (ValueError "invalid word" []))).
Proof.
  split.
  - intros Hlen. unfold Word_init. by rewrite decide_True.
  - intros Hlen. destruct (Word_init_cases lst Hlen) as [[w Hw]|Hw].
    + left. apply Word_init_Ok in Hw as Hw'. destruct Hw' as (d & -> & _ & Hs).
      eauto.
    + right. split; [|done]. intros d Hs.
      assert (Word_init lst = Ok (mkWord lst (Some d))) as Hok.
      { apply Word_init_Ok. eauto. }
      congruence.
Qed.

Lemma make_word_tiles_length word : ∀ p d,
  length (make_word_tiles word p d) = String.length word.
Proof. induction word as [|c word IH]; intros p d; cbn; [done|]. by rewrite IH. Qed.

Lemma make_word_tiles_steps word : ∀ p d, steps (dvec d) (make_word_tiles word p d).
Proof.
  induction word as [|c [|c' word] IH]; intros p d; [done..|].
  split; [done|]. apply (IH (step p (dvec d)) d).
Qed.

Lemma make_word_tiles_lookup word : ∀ p d i t,
  make_word_tiles word p d !! i = Some t →
  pos t = (p.1 + Z.of_nat i * (dvec d).1, p.2 + Z.of_nat i * (dvec d).2)
  ∧ Some (letter t) = (fun c => String c EmptyString) <$> String.get i word.
Proof.
  induction word as [|c word IH]; intros p d i t Hi; [done|].
  destruct i as [|i]; cbn in Hi.
  - simplify_eq. cbn. split; [|done]. destruct p. cbn. f_equal; lia.
  - apply IH in Hi as [-> Hl]. split; [|done]. destruct p. unfold step. cbn.
    f_equal; lia.
Qed.

Lemma make_word_tiles_join word : ∀ p d,
  join (letters (make_word_tiles word p d)) = word.
Proof.
  induction word as [|c word IH]; intros p d; [done|].
  cbn. f_equal. apply IH.
Qed.

(** X6: [make_word(word, pos, direction)]: a string of fewer than two characters
    raises; a longer one gives a word in the requested direction with one
    tile per character, the [i]-th at [pos] plus [i] steps carrying the
    [i]-th character, and [get_pattern] reads the string back. *)
Theorem make_word_spec (word : string) (p : Position) (d : Direction) :
  ((String.length word < 2)%nat →
   make_word word p d
   = Raise (ValueError "invalid word: no single-letter words" []))
  ∧ ((2 ≤ String.length word)%nat →
     ∃ w, make_word word p d = Ok w
       ∧ direction w = Some d
       ∧ length (tiles w) = String.length word
       ∧ (∀ i t, tiles w !! i = Some t →
            pos t = (p.1 + Z.of_nat i * (dvec d).1,
                     p.2 + Z.of_nat i * (dvec d).2)
            ∧ Some (letter t)
              = (fun c => String c EmptyString) <$> String.get i word)
       ∧ get_pattern (tiles w) = Some word).
Proof.
  unfold make_word. split; intros Hlen.
  - unfold Word_init. rewrite decide_True; [done|].
    by rewrite make_word_tiles_length.
  - exists (mkWord (make_word_tiles word p d) (Some d)). split.
    { apply Word_init_Ok. exists d. split; [done|].
      rewrite make_word_tiles_length. split; [done|].
      apply make_word_tiles_steps. }
    cbn [direction tiles]. split; [done|].
    split; [apply make_word_tiles_length|].
    split; [apply make_word_tiles_lookup|].
    unfold get_pattern. rewrite make_word_tiles_join.
    destruct word as [|c word]; [cbn in Hlen; lia|]. done.
Qed.

(** ** The grid *)

(** X7: [manually_put_tile] then [get_tile]: on the board the tile is stored,
    whatever the cell held, [get_tile] at its position returns it and leaves
    the board as it is, and no other cell changes; off the board the call
    raises and the board is left as it was. *)
Theorem manually_put_tile_then_get_tile (b : BoardState) (t : BoardTile) :
  (contains b (pos t) = true →
   ∃ b', manually_put_tile b t = (b', Ok tt)
     ∧ get_tile b' (pos t) = (b', Some t)
     ∧ height b' = height b ∧ width b' = width b
     ∧ ∀ q, q ≠ pos t → board b' !! q = board b !! q)
  ∧ (contains b (pos t) = false →
     manually_put_tile b t = (b, Raise (ValueError "invalid tile position" []))).
Proof.
  unfold manually_put_tile. split; intros ->; [|done].
  eexists. split; [done|]. unfold get_tile. cbn.
  rewrite lookup_insert_eq. repeat split. intros q Hq.
  by rewrite lookup_insert_ne.
Qed.

(** X8: Putting a tile on an empty cell and deleting at that position gives the
    board back. *)
Theorem manually_put_then_delete (b : BoardState) (t : BoardTile) :
  contains b (pos t) = true → board b !! pos t = None →
  manually_delete_tile (manually_put_tile b t).1 (pos t) = (b, Ok tt).
Proof.
  intros Hc Hn. unfold manually_put_tile. rewrite Hc.
  unfold manually_delete_tile. cbn. rewrite lookup_insert_eq.
  destruct b as [h w m]. unfold set_board. cbn in *. f_equal. f_equal.
  rewrite delete_insert_eq. by apply delete_id.
Qed.

Lemma manually_put_then_delete_witness :
  manually_delete_tile
    (manually_put_tile example_board (mkTile (5, 5) "x")).1 (5, 5)
  = (example_board, Ok tt).
Proof.
  apply (manually_put_then_delete example_board (mkTile (5, 5) "x")).
  - reflexivity.
  - vm_compute. reflexivity.
Defined.

(** X9: The board invariant is established by the constructor and kept by every
    mutator: each key lies on the board and holds a tile whose position is
    that key.  ([get_tile] keeps it on occupied cells only.) *)
Theorem board_invariant_kept :
  (∀ h w, wf_board (BoardState_init h w))
  ∧ ∀ b, wf_board b →
      (∀ t, wf_board (manually_put_tile b t).1)
      ∧ (∀ word, wf_board (put_word b word).1)
      ∧ (∀ p, wf_board (manually_delete_tile b p).1)
      ∧ (∀ p, occupied b p = true → wf_board (get_tile b p).1)
      ∧ (∀ p, occupied b p = false → ¬ wf_board (get_tile b p).1).
Proof.
  split; [apply wf_board_init|]. intros b Hwf. repeat split.
  - intros t. eapply manually_put_tile_wf; [done|apply surjective_pairing].
  - intros word. eapply put_word_wf; [done|apply surjective_pairing].
  - intros p. eapply manually_delete_tile_wf; [done|apply surjective_pairing].
  - intros p Ho. by rewrite get_tile_occupied.
  - intros p Ho Hwf'. apply get_tile_empty in Ho as [_ Hn].
    by destruct (wf_stores_tiles _ Hwf' p).
Qed.

(** X10: [put_word] only adds: whatever it returns or raises, the dimensions
    stay, no entry of the board is replaced or removed, and every new key
    is the on-board position of a tile of the word, holding that tile. *)
Theorem put_word_only_adds (b b' : BoardState) (word : list BoardTile)
    (r : result unit) :
  put_word b word = (b', r) →
  height b' = height b ∧ width b' = width b
  ∧ (∀ p v, board b !! p = Some v → board b' !! p = Some v)
  ∧ ∀ p, board b !! p = None → is_Some (board b' !! p) →
      ∃ t, t ∈ word ∧ pos t = p ∧ board b' !! p = Some (Some t)
        ∧ contains b p = true.
Proof.
  intros H. split; [by eapply put_word_dims|]. split; [by eapply put_word_dims|].
  split; [intros p v; by eapply put_word_mono|].
  revert b H. induction word as [|t rest IH]; intros b H p Hn Hs; cbn in H.
  { simplify_eq. rewrite Hn in Hs. by destruct Hs. }
  destruct (board b !! pos t) as [[e|]|] eqn:Hl.
  - destruct (decide (letter t = letter e)).
    + destruct (IH _ H p Hn Hs) as (u & ? & ?). exists u. split; [by right|done].
    + simplify_eq. rewrite Hn in Hs. by destruct Hs.
  - simplify_eq. rewrite Hn in Hs. by destruct Hs.
  - unfold manually_put_tile in H.
    destruct (contains b (pos t)) eqn:Hc.
    2: { simplify_eq. rewrite Hn in Hs. by destruct Hs. }
    destruct (decide (p = pos t)) as [->|Hne].
    + exists t. split; [left|]. split; [done|]. split; [|done].
      eapply put_word_mono; [done|]. cbn. apply lookup_insert_eq.
    + destruct (IH _ H p) as (u & ? & ? & ? & ?); [|done|].
      { cbn. by rewrite lookup_insert_ne. }
      exists u. split; [by right|done].
Qed.

Lemma put_word_only_adds_witness :
  let b := BoardState_init 15 15 in
  let word := make_word_tiles "cat" (0, 0) ACROSS in
  let b' := (put_word b word).1 in
  height b' = height b ∧ width b' = width b
  ∧ (∀ p v, board b !! p = Some v → board b' !! p = Some v)
  ∧ ∀ p, board b !! p = None → is_Some (board b' !! p) →
      ∃ t, t ∈ word ∧ pos t = p ∧ board b' !! p = Some (Some t)
        ∧ contains b p = true.
Proof.
  apply (put_word_only_adds (BoardState_init 15 15)
           (put_word (BoardState_init 15 15)
              (make_word_tiles "cat" (0, 0) ACROSS)).1
           (make_word_tiles "cat" (0, 0) ACROSS) (Ok tt)).
  reflexivity.
Defined.

(** X11: How [put_word] ends.  It returns with every tile of the word on the
    board; or it raises "invalid tile position" at a tile that is off the
    board and on no occupied cell; or it raises the letter mismatch at a
    tile whose cell holds another letter; or, when a cell under the word
    holds [None], it raises [AttributeError].  Nothing else happens. *)
Theorem put_word_outcome (b b' : BoardState) (word : list BoardTile)
    (r : result unit) :
  put_word b word = (b', r) →
  match r with
  | Ok _ => Forall (written b') word
  | Raise (ValueError msg args) =>
      (msg = "invalid tile position" ∧ args = []
       ∧ ∃ t, t ∈ word ∧ contains b (pos t) = false
           ∧ board b' !! pos t = None)
      ∨ (msg = "tile letter does not match board letter"
         ∧ ∃ t e, t ∈ word ∧ args = [show e; show t]
             ∧ board b' !! pos t = Some (Some e) ∧ letter t ≠ letter e)
  | Raise AttributeError => ∃ t, t ∈ word ∧ board b !! pos t = Some None
  | _ => False
  end.
Proof.
  revert b. induction word as [|t rest IH]; intros b H; cbn in H.
  { simplify_eq. constructor. }
  assert (Hlift : ∀ b1, put_word b1 rest = (b', r) →
            (∀ u, contains b1 (pos u) = false → contains b (pos u) = false) →
            (∀ u, board b1 !! pos u = Some None → board b !! pos u = Some None) →
            (∃ e, board b1 !! pos t = Some (Some e) ∧ letter e = letter t) →
            match r with
            | Ok _ => Forall (written b') (t :: rest)
            | Raise (ValueError msg args) =>
                (msg = "invalid tile position" ∧ args = []
                 ∧ ∃ u, u ∈ t :: rest ∧ contains b (pos u) = false
                     ∧ board b' !! pos u = None)
                ∨ (msg = "tile letter does not match board letter"
                   ∧ ∃ u e, u ∈ t :: rest ∧ args = [show e; show u]
                       ∧ board b' !! pos u = Some (Some e)
                       ∧ letter u ≠ letter e)
            | Raise AttributeError =>
                ∃ u, u ∈ t :: rest ∧ board b !! pos u = Some None
            | _ => False
            end).
  { intros b1 H1 Hc Hn (e & Hl & He). pose proof (IH _ H1) as HI.
    destruct r as [[]|[msg args| | | | |]|]; try done.
    - constructor; [|done]. exists e. split; [|done].
      eapply put_word_mono; done.
    - destruct HI as [(-> & -> & u & Hu & Hcu & Hlu)|(-> & u & e' & Hu & ?)].
      + left. repeat split. exists u. split; [by right|auto].
      + right. split; [done|]. exists u, e'. split; [by right|done].
    - destruct HI as (u & Hu & Hlu). exists u. split; [by right|auto]. }
  destruct (board b !! pos t) as [[e|]|] eqn:Hl.
  - destruct (decide (letter t = letter e)) as [He|He].
    + apply (Hlift b H); eauto.
    + simplify_eq. right. split; [done|]. exists t, e. split; [by left|done].
  - simplify_eq. exists t. split; [by left|done].
  - unfold manually_put_tile in H. destruct (contains b (pos t)) eqn:Hc.
    + apply (Hlift _ H).
      * done.
      * intros u. cbn. rewrite lookup_insert. case_decide; [done|auto].
      * exists t. split; [|done]. cbn. apply lookup_insert_eq.
    + simplify_eq. left. repeat split. exists t. split; [by left|done].
Qed.

Lemma put_word_outcome_witness :
  Forall (written (put_word (BoardState_init 15 15)
                     (make_word_tiles "cat" (0, 0) ACROSS)).1)
    (make_word_tiles "cat" (0, 0) ACROSS).
Proof.
  exact (put_word_outcome (BoardState_init 15 15)
           (put_word (BoardState_init 15 15)
              (make_word_tiles "cat" (0, 0) ACROSS)).1
           (make_word_tiles "cat" (0, 0) ACROSS) (Ok tt) eq_refl).
Defined.

(** ** The pattern search *)

Lemma make_patterns_returns b p d mt fuel :
  wf_board b → (enough b ≤ fuel)%nat → is_Some (board b !! p) →
  ∃ ps, make_patterns fuel b p d mt = Ok ps.
Proof.
  intros Hwf Hf [v Hv]. destruct (Hwf _ _ Hv) as (anchor & -> & _).
  destruct (wf_anchor _ _ _ Hwf Hv) as (Hp & Hc & Ho & Hat).
  destruct (make_patterns_levels fuel b p d mt (fun _ => True) Hc Ho)
    as (scrs & _ & _ & Hmk); [|eauto].
  intros r.
  destruct (pattern_level_invariant b d p anchor fuel r
    (fun _ _ => True) (fun _ => True) Hwf Hv Hf) as (st & Hst & _); eauto.
Qed.

Lemma make_patterns_cases b p d mt fuel :
  wf_board b → (enough b ≤ fuel)%nat →
  match board b !! p with
  | Some _ => ∃ ps, make_patterns fuel b p d mt = Ok ps ∧ (mt ≤ 0 → ps = [])
  | None =>
      make_patterns fuel b p d mt
      = Raise (ValueError (if contains b p then "empty position tile"
                           else "invalid tile location") [])
  end.
Proof.
  intros Hwf Hf. destruct (board b !! p) as [v|] eqn:Hv.
  - destruct (make_patterns_returns b p d mt fuel Hwf Hf) as [ps Hps];
      [by rewrite Hv|].
    exists ps. split; [done|]. intros Hmt. unfold make_patterns in Hps.
    destruct (Hwf _ _ Hv) as (t & _ & _ & Hc).
    assert (occupied b p = true) as Ho.
    { apply occupied_true. by rewrite Hv. }
    rewrite Hc, Ho in Hps. cbn [negb] in Hps. unfold xrange in Hps.
    rewrite (seqZ_nil 0 (mt - 0)) in Hps by lia. cbn in Hps. by simplify_eq.
  - unfold make_patterns. destruct (contains b p); [|done]. cbn [negb].
    by rewrite (proj2 (occupied_false b p)).
Qed.

(** X12: How [make_patterns] ends on a well-formed board: off the board it raises
    "invalid tile location", on an empty cell "empty position tile", and on
    an occupied cell it returns, the empty list when [max_tiles <= 0]. *)
Theorem make_patterns_outcome (b : BoardState) (p : Position) (d : Direction)
    (max_tiles : Z) (fuel : nat) :
  wf_board b → (enough b ≤ fuel)%nat →
  match board b !! p with
  | Some _ =>
      ∃ ps, make_patterns fuel b p d max_tiles = Ok ps
        ∧ (max_tiles ≤ 0 → ps = [])
  | None =>
      make_patterns fuel b p d max_tiles
      = Raise (ValueError (if contains b p then "empty position tile"
                           else "invalid tile location") [])
  end.
Proof. apply make_patterns_cases. Qed.

Lemma make_patterns_outcome_witness :
  make_patterns (enough example_board) example_board (7, 7) ACROSS 7
  = Raise (ValueError "empty position tile" []).
Proof.
  exact (make_patterns_outcome example_board (7, 7) ACROSS 7
           (enough example_board) example_board_wf (le_n _)).
Defined.

Lemma try_make_patterns_Ok b p d fuel :
  wf_board b → (enough b ≤ fuel)%nat → try_make_patterns fuel b p d = Ok tt.
Proof.
  intros Hwf Hf. unfold try_make_patterns.
  pose proof (make_patterns_cases b p d 7 fuel Hwf Hf) as H.
  destruct (board b !! p); [by destruct H as (ps & -> & _)|by rewrite H].
Qed.

(** X13: The scan board.py runs on import never lets an exception escape: on a
    well-formed board every [make_patterns] call of the loop returns or
    raises a [ValueError], which the loop swallows. *)
Theorem scan_cells_completes (b : BoardState) (fuel : nat)
    (cells : list Position) :
  wf_board b → (enough b ≤ fuel)%nat → scan_cells fuel b cells = Ok tt.
Proof.
  intros Hwf Hf. induction cells as [|p cells IH]; [done|]. cbn.
  by rewrite !try_make_patterns_Ok.
Qed.

Lemma scan_cells_completes_witness :
  board_module_scan (enough example_board) = Ok tt.
Proof.
  exact (scan_cells_completes example_board (enough example_board)
           (i ← xrange 0 15; (fun j => (i, j)) <$> xrange 0 15)
           example_board_wf (le_n _)).
Defined.

(** What holds of every pattern of every level in range holds of every
    pattern [make_patterns] returns. *)
Lemma make_patterns_Forall b p d mt fuel anchor (φ : Z → Word → Prop) :
  wf_board b → board b !! p = Some (Some anchor) → (enough b ≤ fuel)%nat →
  (∀ r, 0 ≤ r < mt →
     ∃ scr, pattern_level fuel b d p r = Ok scr ∧ Forall (φ r) scr) →
  ∃ scrs,
    Forall2 (fun r scr => pattern_level fuel b d p r = Ok scr
                          ∧ Forall (φ r) scr) (xrange 0 mt) scrs
    ∧ make_patterns fuel b p d mt = Ok (concat scrs).
Proof.
  intros Hwf Hl Hf Hlev.
  destruct (wf_anchor _ _ _ Hwf Hl) as (Hp & Hc & Ho & Hat).
  destruct (make_patterns_levels fuel b p d mt (fun _ => True) Hc Ho)
    as (scrs & HF & _ & Hmk).
  { intros r.
    destruct (pattern_level_invariant b d p anchor fuel r
      (fun _ _ => True) (fun _ => True) Hwf Hl Hf) as (st & Hst & _); eauto. }
  exists scrs. split; [|done].
  apply Forall2_same_length_lookup. split; [by eapply Forall2_length|].
  intros i r scr Hr Hscr.
  pose proof (Forall2_lookup_lr _ _ _ _ _ _ HF Hr Hscr) as Hlv.
  split; [done|].
  destruct (Hlev r) as (scr' & Hlv' & Hφ); [|congruence].
  apply elem_of_xrange. by eapply list_elem_of_lookup_2.
Qed.

Lemma count_blank_cons t cur :
  count_blank (t :: cur)
  = ((if decide (letter t = blank) then 1 else 0) + count_blank cur)%nat.
Proof. unfold count_blank. rewrite filter_cons. by case_decide. Qed.

Lemma count_blank_app cur t :
  count_blank (cur ++ [t])
  = (count_blank cur + if decide (letter t = blank) then 1 else 0)%nat.
Proof.
  unfold count_blank. rewrite filter_app, length_app, filter_cons.
  by case_decide.
Qed.

Lemma has_blank_count cur : has_blank cur = true → (1 ≤ count_blank cur)%nat.
Proof.
  induction cur as [|t cur IH]; [done|]. rewrite has_blank_cons, count_blank_cons.
  case_decide as Ht; [lia|]. rewrite (bool_decide_eq_false_2 _ Ht). cbn.
  intros H. apply IH in H. lia.
Qed.

(** X14: On a board without placeholder tiles, every pattern collected at budget
    level [r] holds exactly [r] placeholders; so every pattern
    [make_patterns] returns holds at least one and at most [max_tiles - 1]
    of them. *)
Theorem make_patterns_placeholder_count (b : BoardState) (p : Position)
    (d : Direction) (max_tiles : Z) (fuel : nat) (anchor : BoardTile) :
  wf_board b → no_blank_tiles b →
  board b !! p = Some (Some anchor) → (enough b ≤ fuel)%nat →
  ∃ scrs,
    Forall2 (fun r scr =>
        pattern_level fuel b d p r = Ok scr
        ∧ Forall (fun w => Z.of_nat (count_blank (tiles w)) = r) scr)
      (xrange 0 max_tiles) scrs
    ∧ make_patterns fuel b p d max_tiles = Ok (concat scrs)
    ∧ Forall (fun w => 1 ≤ Z.of_nat (count_blank (tiles w)) ≤ max_tiles - 1)
        (concat scrs).
Proof.
  intros Hwf Hnb Hl Hf.
  destruct (make_patterns_Forall b p d max_tiles fuel anchor
    (fun r w => Z.of_nat (count_blank (tiles w)) = r
                ∧ has_blank (tiles w) = true) Hwf Hl Hf)
    as (scrs & HF & Hmk).
  { intros r _.
    destruct (pattern_level_invariant b d p anchor fuel r
      (fun rem cur => rem = r - Z.of_nat (count_blank cur))
      (fun st => Forall (fun w => Z.of_nat (count_blank (tiles w)) = r
                                  ∧ has_blank (tiles w) = true) st.1)
      Hwf Hl Hf) as (st & Hst & HQ); [| | |eauto].
    - apply make_pattern_rec_invariant.
      + intros rem cur first t -> _ Ht. rewrite count_blank_cons.
        rewrite decide_False by by eapply Hnb. lia.
      + intros rem cur lst t -> _ Ht. rewrite count_blank_app.
        rewrite decide_False by by eapply Hnb. lia.
      + intros rem cur first -> _ _ _ _. rewrite count_blank_cons. cbn.
        rewrite decide_True by done. lia.
      + intros rem cur lst -> _ _ _ _. rewrite count_blank_app. cbn.
        rewrite decide_True by done. lia.
      + done.
      + intros ret vis cur w HQ Hrem _ _ Hb HW. cbn [fst].
        apply Forall_app. split; [done|]. constructor; [|done].
        apply Word_init_Ok in HW as (d' & -> & _). cbn [tiles].
        split; [lia|done].
    - rewrite count_blank_cons. cbn.
      rewrite decide_False by by eapply Hnb. lia.
    - by cbn. }
  exists scrs. split; [|split; [done|]].
  - eapply Forall2_impl; [exact HF|]. intros r scr [? Hφ]. split; [done|].
    eapply Forall_impl; [exact Hφ|]. by intros w [? _].
  - apply Forall_concat. apply Forall_lookup. intros i scr Hscr.
    destruct (Forall2_lookup_r _ _ _ _ _ HF Hscr) as (r & Hr & _ & Hφ).
    apply list_elem_of_lookup_2, elem_of_xrange in Hr.
    eapply Forall_impl; [exact Hφ|]. intros w [Hc Hb].
    apply has_blank_count in Hb. cbn. lia.
Qed.

Lemma make_patterns_placeholder_count_witness :
  ∃ scrs,
    Forall2 (fun r scr =>
        pattern_level (enough example_board) example_board DOWN (0, 0) r
        = Ok scr
        ∧ Forall (fun w => Z.of_nat (count_blank (tiles w)) = r) scr)
      (xrange 0 7) scrs
    ∧ make_patterns (enough example_board) example_board (0, 0) DOWN 7
      = Ok (concat scrs)
    ∧ Forall (fun w => 1 ≤ Z.of_nat (count_blank (tiles w)) ≤ 7 - 1)
        (concat scrs).
Proof.
  apply (make_patterns_placeholder_count example_board (0, 0) DOWN 7
           (enough example_board) (mkTile (0, 0) "c")).
  - apply example_board_wf.
  - apply example_board_letters.
  - vm_compute. reflexivity.
  - lia.
Defined.

Lemma has_blank_get_pattern l :
  has_blank l = true → get_pattern l = Some (join (letters l)).
Proof.
  intros Hb. unfold get_pattern.
  assert (existsb (fun t => negb (bool_decide (letter t = EmptyString))) l
          = true) as ->; [|done].
  unfold has_blank in Hb. apply existsb_exists in Hb as (t & Ht & Hb).
  apply existsb_exists. exists t. split; [done|].
  apply bool_decide_eq_true in Hb. rewrite Hb. done.
Qed.

(** X15: Every pattern [make_patterns] returns lies on the board and fits it: a
    tile of the pattern is the tile the board holds at that cell, or a
    placeholder on an empty cell.  [get_pattern] of such a pattern is never
    [None]: it is the joined letters. *)
Theorem make_patterns_fit_board (b : BoardState) (p : Position)
    (d : Direction) (max_tiles : Z) (fuel : nat) (anchor : BoardTile) :
  wf_board b → board b !! p = Some (Some anchor) → (enough b ≤ fuel)%nat →
  ∃ ps, make_patterns fuel b p d max_tiles = Ok ps
    ∧ Forall (fun w =>
        Forall (fits b) (tiles w)
        ∧ get_pattern (tiles w) = Some (join (letters (tiles w)))) ps.
Proof.
  intros Hwf Hl Hf.
  destruct (make_patterns_Forall b p d max_tiles fuel anchor
    (fun _ w => Forall (fits b) (tiles w)
                ∧ get_pattern (tiles w) = Some (join (letters (tiles w))))
    Hwf Hl Hf) as (scrs & HF & Hmk).
  { intros r _.
    destruct (pattern_level_invariant b d p anchor fuel r
      (fun _ cur => Forall (fits b) cur)
      (fun st => Forall (fun w =>
         Forall (fits b) (tiles w)
         ∧ get_pattern (tiles w) = Some (join (letters (tiles w)))) st.1)
      Hwf Hl Hf) as (st & Hst & HQ); [| | |eauto].
    - assert (∀ q t, board b !! q = Some (Some t) → fits b t) as Hfit.
      { intros q t Ht. destruct (Hwf _ _ Ht) as (t' & [= <-] & Hq & Hc).
        split; rewrite Hq; auto. }
      apply make_pattern_rec_invariant.
      + intros rem cur first t HI _ Ht. constructor; eauto.
      + intros rem cur lst t HI _ Ht. apply Forall_app. split; [done|].
        constructor; eauto.
      + intros rem cur first HI _ Hn Hc _. constructor; [|done].
        split; [done|]. by right.
      + intros rem cur lst HI _ Hn Hc _. apply Forall_app. split; [done|].
        constructor; [|done]. split; [done|]. by right.
      + done.
      + intros ret vis cur w HQ HI _ _ Hb HW. cbn [fst].
        apply Forall_app. split; [done|]. constructor; [|done].
        apply Word_init_Ok in HW as (d' & -> & _). cbn [tiles].
        split; [done|]. by apply has_blank_get_pattern.
    - constructor; [|done]. destruct (Hwf _ _ Hl) as (t' & [= <-] & Hq & Hc).
      split; rewrite Hq; auto.
    - by cbn. }
  exists (concat scrs). split; [done|]. apply Forall_concat.
  apply Forall_lookup. intros i scr Hscr.
  by destruct (Forall2_lookup_r _ _ _ _ _ HF Hscr) as (r & _ & _ & Hφ).
Qed.

Lemma make_patterns_fit_board_witness :
  ∃ ps, make_patterns (enough example_board) example_board (1, 0) DOWN 3
        = Ok ps
    ∧ Forall (fun w =>
        Forall (fits example_board) (tiles w)
        ∧ get_pattern (tiles w) = Some (join (letters (tiles w)))) ps.
Proof.
  apply (make_patterns_fit_board example_board (1, 0) DOWN 3
           (enough example_board) (mkTile (1, 0) "a")).
  - apply example_board_wf.
  - vm_compute. reflexivity.
  - lia.
Defined.

Lemma patterns_loop_app fuel b d p l1 : ∀ l2 ret,
  patterns_loop fuel b d p (l1 ++ l2) ret
  = (ret' <- patterns_loop fuel b d p l1 ret ;;
     patterns_loop fuel b d p l2 ret').
Proof.
  induction l1 as [|r l1 IH]; intros l2 ret; [done|].
  cbn [app patterns_loop].
  destruct (pattern_level fuel b d p r); cbn [bind]; [apply IH|done|done].
Qed.

(** X16: A larger budget only appends: [make_patterns] with [max_tiles + 1]
    returns what it returns with [max_tiles], followed by the patterns of
    budget level [max_tiles]. *)
Theorem make_patterns_grows (b : BoardState) (p : Position) (d : Direction)
    (max_tiles : Z) (fuel : nat) :
  wf_board b → is_Some (board b !! p) → (enough b ≤ fuel)%nat →
  0 ≤ max_tiles →
  ∃ ps extra,
    make_patterns fuel b p d max_tiles = Ok ps
    ∧ pattern_level fuel b d p max_tiles = Ok extra
    ∧ make_patterns fuel b p d (max_tiles + 1) = Ok (ps ++ extra).
Proof.
  intros Hwf Hs Hf Hmt.
  destruct (make_patterns_returns b p d max_tiles fuel Hwf Hf Hs) as [ps Hps].
  destruct (make_patterns_returns b p d (max_tiles + 1) fuel Hwf Hf Hs)
    as [ps' Hps'].
  assert (xrange 0 (max_tiles + 1) = xrange 0 max_tiles ++ [max_tiles]) as Hx.
  { unfold xrange.
    replace (max_tiles + 1 - 0) with ((max_tiles - 0) + 1) by lia.
    rewrite seqZ_app by lia. f_equal.
    rewrite seqZ_cons, seqZ_nil by lia. f_equal. lia. }
  exists ps. unfold make_patterns in *.
  destruct (negb (contains b p)); [done|].
  destruct (negb (occupied b p)); [done|].
  rewrite Hx, patterns_loop_app, Hps in Hps'. cbn [bind patterns_loop] in Hps'.
  rewrite Hx, patterns_loop_app, Hps. cbn [bind patterns_loop].
  destruct (pattern_level fuel b d p max_tiles) as [extra| |]; [|done|done].
  by exists extra.
Qed.

Lemma make_patterns_grows_witness :
  ∃ ps extra,
    make_patterns (enough example_board) example_board (0, 0) DOWN 2 = Ok ps
    ∧ pattern_level (enough example_board) example_board DOWN (0, 0) 2
      = Ok extra
    ∧ make_patterns (enough example_board) example_board (0, 0) DOWN (2 + 1)
      = Ok (ps ++ extra).
Proof.
  apply (make_patterns_grows example_board (0, 0) DOWN 2
           (enough example_board)).
  - apply example_board_wf.
  - vm_compute. eauto.
  - lia.
  - lia.
Defined.

(** ** Cross words and candidates *)

Lemma intersecting_loop_cases b d fuel : wf_board b → (enough b ≤ fuel)%nat →
  ∀ word words,
    (on_board b word
     ∧ ∃ l, intersecting_loop fuel b d word words = Ok (words ++ l)
         ∧ (length l ≤ length word)%nat)
    ∨ (¬ on_board b word
       ∧ intersecting_loop fuel b d word words = Raise TypeError).
Proof.
  intros Hwf Hf. induction word as [|tile word IH]; intros words.
  - left. split; [constructor|]. exists []. by rewrite app_nil_r.
  - cbn [intersecting_loop]. destruct (contains b (pos tile)) eqn:Hc.
    + destruct (get_intersecting_word_for_pos_spec b tile d fuel Hwf Hc Hf)
        as (bwd & fwd & _ & _ & ->). cbn [bind].
      set (r := match bwd, fwd with
                | [], [] => None
                | _, _ => Some (rev bwd ++ tile :: fwd)
                end).
      assert (∃ ws, (length ws ≤ 1)%nat ∧
                ∀ rest, match r with
                        | Some ts => intersecting_loop fuel b d rest
                                       (words ++ [join (letters ts)])
                        | None => intersecting_loop fuel b d rest words
                        end = intersecting_loop fuel b d rest (words ++ ws))
        as (ws & Hws & ->).
      { destruct r as [ts|].
        - exists [join (letters ts)]. by split.
        - exists []. split; [cbn; lia|]. intros rest. by rewrite app_nil_r. }
      destruct (IH (words ++ ws)) as [(Hon & l & -> & Hl)|(Hon & ->)].
      * left. split; [by constructor|]. exists (ws ++ l).
        rewrite app_assoc. split; [done|]. rewrite length_app. cbn. lia.
      * right. split; [|done]. intros Hon'. apply Forall_cons in Hon'. tauto.
    + right. split.
      * intros Hon. apply Forall_cons in Hon as [Hc' _]. congruence.
      * unfold get_intersecting_word_for_pos.
        assert (is_direction (dvec d) = true) as ->.
        { apply is_direction_spec. eauto. }
        by rewrite Hc.
Qed.

(** X17: How [get_intersecting_words] ends on a well-formed board for a word with
    a direction: when all its tiles are on the board it returns at most one
    string per tile; when one is off the board it raises [TypeError], the
    [raise] of the "invalid position" error being given a separate
    value. *)
Theorem get_intersecting_words_outcome (b : BoardState) (w : Word)
    (A : Direction) (fuel : nat) :
  wf_board b → direction w = Some A → (enough b ≤ fuel)%nat →
  (on_board b (tiles w)
   ∧ ∃ ints, get_intersecting_words fuel b w = Ok ints
       ∧ (length ints ≤ length (tiles w))%nat)
  ∨ (¬ on_board b (tiles w)
     ∧ get_intersecting_words fuel b w = Raise TypeError).
Proof.
  intros Hwf Hd Hf. unfold get_intersecting_words. rewrite Hd.
  apply (intersecting_loop_cases b (orthogonal A) fuel Hwf Hf (tiles w) []).
Qed.

Lemma get_intersecting_words_outcome_witness :
  (on_board example_board [mkTile (15, 15) "a"; mkTile (16, 15) "b"]
   ∧ ∃ ints,
       get_intersecting_words (enough example_board) example_board
         (mkWord [mkTile (15, 15) "a"; mkTile (16, 15) "b"] (Some ACROSS))
       = Ok ints
       ∧ (length ints ≤ 2)%nat)
  ∨ (¬ on_board example_board [mkTile (15, 15) "a"; mkTile (16, 15) "b"]
     ∧ get_intersecting_words (enough example_board) example_board
         (mkWord [mkTile (15, 15) "a"; mkTile (16, 15) "b"] (Some ACROSS))
       = Raise TypeError).
Proof.
  exact (get_intersecting_words_outcome example_board
           (mkWord [mkTile (15, 15) "a"; mkTile (16, 15) "b"] (Some ACROSS))
           ACROSS (enough example_board) example_board_wf eq_refl (le_n _)).
Defined.

Lemma fill_positions pat : ∀ m ts,
  fill pat m = Ok ts →
  pos <$> ts = pos <$> pat
  ∧ join (letters ts) = String.substring 0 (length pat) m.
Proof.
  induction pat as [|t pat IH]; intros m ts H; cbn in H.
  - simplify_eq. by destruct m.
  - destruct m as [|c m]; [done|].
    destruct (fill pat m) as [r| |] eqn:Hr; [|done..]. cbn in H. simplify_eq.
    destruct (IH _ _ Hr) as [Hp Hj]. split.
    + cbn [fmap list_fmap pos]. f_equal. exact Hp.
    + change (letters (mkTile (pos t) (String c EmptyString) :: r))
        with (String c EmptyString :: letters r).
      rewrite join_cons, Hj. done.
Qed.

(** X18: Laying a match over a pattern: a match shorter than the pattern raises
    [IndexError]; otherwise the tiles keep the positions of the pattern and
    spell the first [len(pat)] characters of the match, whatever follows
    being ignored. *)
Theorem fill_outcome (pat : list BoardTile) (m : string) :
  ((String.length m < length pat)%nat → fill pat m = Raise IndexError)
  ∧ ((length pat ≤ String.length m)%nat →
     ∃ ts, fill pat m = Ok ts
       ∧ pos <$> ts = pos <$> pat
       ∧ join (letters ts) = String.substring 0 (length pat) m).
Proof.
  revert m. induction pat as [|t pat IH]; intros m.
  - split; [cbn; lia|]. intros _. exists []. by destruct m.
  - destruct m as [|c m]; cbn [fill length String.length].
    + split; [done|lia].
    + destruct (IH m) as [Hshort Hlong]. split; intros Hlen.
      * rewrite Hshort by lia. done.
      * destruct Hlong as (ts & Hts & Hp & Hj); [lia|]. rewrite Hts.
        eexists. split; [done|]. split.
        -- cbn [fmap list_fmap pos]. f_equal. exact Hp.
        -- change (letters (mkTile (pos t) (String c EmptyString) :: ts))
             with (String c EmptyString :: letters ts).
           rewrite join_cons, Hj. done.
Qed.

Section CandidateFacts.
Context (find_matches : option string → string → result (list string)).
Context (wordlist_has : string → result bool).

Lemma any_not_in_false ints :
  any_not_in wordlist_has ints = Ok false →
  Forall (fun i => wordlist_has i = Ok true) ints.
Proof.
  induction ints as [|i ints IH]; [constructor|]. cbn.
  destruct (wordlist_has i) as [[]| |] eqn:Hi; cbn; [|done..].
  intros H. constructor; auto.
Qed.

Lemma matches_loop_candidates fuel brd gutter pat all_matches :
  find_matches (get_pattern (tiles pat)) gutter = Ok all_matches →
  ∀ matches ret ret',
    matches ⊆ all_matches →
    matches_loop wordlist_has fuel brd pat matches ret = Ok ret' →
    ∃ new, ret' = ret ++ new
      ∧ Forall (fun w =>
          candidate find_matches wordlist_has fuel brd gutter pat w
          ∧ pos <$> tiles w = pos <$> tiles pat) new.
Proof.
  intros Hfm. induction matches as [|m matches IH]; intros ret ret' Hsub H.
  - cbn in H. simplify_eq. exists []. by rewrite app_nil_r.
  - cbn [matches_loop] in H.
    destruct (fill (tiles pat) m) as [ts| |] eqn:Hts; [|done..].
    cbn [bind] in H.
    destruct (Word_init ts) as [tile| |] eqn:HW; [|done..]. cbn [bind] in H.
    destruct (get_intersecting_words fuel brd tile) as [ints| |] eqn:Hi;
      [|done..].
    cbn [bind] in H.
    destruct (any_not_in wordlist_has ints) as [[]| |] eqn:Hany; [| |done..];
      cbn [bind] in H.
    + apply IH in H; [done|set_solver].
    + apply IH in H as (new & -> & Hnew); [|set_solver].
      exists (tile :: new). split; [by rewrite <- app_assoc|].
      constructor; [|done].
      apply Word_init_Ok in HW as HW'. destruct HW' as (d & -> & _).
      cbn [tiles]. split; [|by destruct (fill_positions _ _ _ Hts)].
      exists all_matches, m, ints. cbn [tiles].
      repeat split; [done|set_solver|done|done|done|].
      by apply any_not_in_false.
Qed.

Lemma fit_loop_candidates fuel brd gutter all_patterns :
  ∀ patterns ret ret',
    patterns ⊆ all_patterns →
    fit_loop find_matches wordlist_has fuel brd gutter patterns ret = Ok ret' →
    ∃ new, ret' = ret ++ new
      ∧ Forall (fun w => ∃ pat,
          pat ∈ all_patterns
          ∧ candidate find_matches wordlist_has fuel brd gutter pat w
          ∧ pos <$> tiles w = pos <$> tiles pat) new.
Proof.
  induction patterns as [|pat patterns IH]; intros ret ret' Hsub H.
  - cbn in H. simplify_eq. exists []. by rewrite app_nil_r.
  - cbn [fit_loop] in H.
    destruct (find_matches (get_pattern (tiles pat)) gutter)
      as [matches| |] eqn:Hfm; [|done..].
    cbn [bind] in H.
    destruct (matches_loop wordlist_has fuel brd pat matches ret)
      as [ret1| |] eqn:Hm; [|done..].
    cbn [bind] in H.
    apply (matches_loop_candidates _ _ _ _ _ Hfm) in Hm
      as (new1 & -> & Hnew1); [|done].
    apply IH in H as (new2 & -> & Hnew2); [|set_solver].
    exists (new1 ++ new2). split; [by rewrite app_assoc|].
    apply Forall_app. split; [|done].
    eapply Forall_impl; [exact Hnew1|]. intros w [? ?]. exists pat.
    split; [set_solver|done].
Qed.
End CandidateFacts.

(** X19: Every word [words_for_pos] returns comes from a pattern of
    [make_patterns] for the rack size and an answer of the matcher for that
    pattern: it lies on the positions of the pattern, is accepted by
    [Word], and each cross word it forms passes the lexicon test. *)
Theorem words_for_pos_candidates
    (find_matches : option string → string → result (list string))
    (wordlist_has : string → result bool)
    (fuel : nat) (brd : BoardState) (p : Position) (d : Direction)
    (gutter : string) (ws : list Word) :
  words_for_pos find_matches wordlist_has fuel brd p d gutter = Ok ws →
  ∃ patterns,
    make_patterns fuel brd p d (Z.of_nat (String.length gutter)) = Ok patterns
    ∧ Forall (fun w => ∃ pat,
        pat ∈ patterns
        ∧ candidate find_matches wordlist_has fuel brd gutter pat w
        ∧ pos <$> tiles w = pos <$> tiles pat) ws.
Proof.
  unfold words_for_pos. intros H.
  destruct (make_patterns fuel brd p d (Z.of_nat (String.length gutter)))
    as [patterns| |]; [|done..].
  cbn [bind] in H. exists patterns. split; [done|].
  apply (fit_loop_candidates _ _ _ _ _ patterns) in H as (new & -> & Hnew);
    done.
Qed.

Lemma words_for_pos_candidates_witness :
  let matcher := fun (pat : option string) (_ : string) =>
    Ok (if decide (pat = Some "corner_") then ["corners"; "cornerx"] else []) in
  let lexicon := fun w : string => Ok (bool_decide (w ≠ "catx")) in
  let ws := [mkWord (make_word_tiles "corners" (0, 0) DOWN) (Some DOWN);
             mkWord (make_word_tiles "cornerx" (0, 0) DOWN) (Some DOWN)] in
  ∃ patterns,
    make_patterns (enough example_board) example_board (0, 0) DOWN
      (Z.of_nat (String.length "sx")) = Ok patterns
    ∧ Forall (fun w => ∃ pat,
        pat ∈ patterns
        ∧ candidate matcher lexicon (enough example_board) example_board
            "sx" pat w
        ∧ pos <$> tiles w = pos <$> tiles pat) ws.
Proof.
  exact (words_for_pos_candidates
    (fun (pat : option string) (_ : string) =>
       Ok (if decide (pat = Some "corner_") then ["corners"; "cornerx"]
           else []))
    (fun w : string => Ok (bool_decide (w ≠ "catx")))
    (enough example_board) example_board (0, 0) DOWN "sx"
    [mkWord (make_word_tiles "corners" (0, 0) DOWN) (Some DOWN);
     mkWord (make_word_tiles "cornerx" (0, 0) DOWN) (Some DOWN)]
    eq_refl).
Defined.

(** ** The delegate *)

(** X20: Typing a letter on an empty cell of the board and clearing that cell
    gives the delegate back, hand included; typing it off the board raises
    "invalid tile position" and changes neither the board nor the hand. *)
Theorem letterWasInput_then_cleared (dg : Delegate) (l : string)
    (p : Position) :
  (String.length l ≤ 1)%nat →
  (contains (board_state dg) p = true →
   board (board_state dg) !! p = None →
   (p.2 = 15 → hand dg !! p.1 = None) →
   ∃ dg', letterWasInput dg l p = Some (dg', Ok tt)
     ∧ board (board_state dg') !! p = Some (Some (mkTile p l))
     ∧ (p.2 = 15 → hand dg' !! p.1 = Some l)
     ∧ tileWasCleared dg' p = (dg, Ok tt))
  ∧ (contains (board_state dg) p = false →
     letterWasInput dg l p
     = Some (dg, Raise (ValueError "invalid tile position" []))).
Proof.
  intros Hlen. unfold letterWasInput, BoardTile_init.
  rewrite decide_True by done. unfold manually_put_tile. cbn [pos].
  destruct dg as [[h w m] bw hd]. cbn [board_state best_words hand board].
  split.
  - intros -> Hn Hh. unfold tileWasCleared, manually_delete_tile.
    case_bool_decide as H15; eexists; (split; [done|]);
      cbn [board_state best_words hand board set_board height width].
    all: rewrite !lookup_insert_eq. all: split; [done|]. all: split; [done|].
    all: rewrite delete_insert_eq, delete_id by done.
    + by rewrite delete_insert_eq, delete_id by auto.
    + done.
  - by intros ->.
Qed.

Lemma letterWasInput_then_cleared_witness :
  ∃ dg', letterWasInput (mkDelegate example_board None ∅) "s" (3, 15)
         = Some (dg', Ok tt)
    ∧ board (board_state dg') !! (3, 15) = Some (Some (mkTile (3, 15) "s"))
    ∧ ((3, 15).2 = 15 → hand dg' !! (3, 15).1 = Some "s")
    ∧ tileWasCleared dg' (3, 15) = (mkDelegate example_board None ∅, Ok tt).
Proof.
  apply (proj1 (letterWasInput_then_cleared
                  (mkDelegate example_board None ∅) "s" (3, 15) (le_n 1))).
  - reflexivity.
  - vm_compute. reflexivity.
  - intros _. apply lookup_empty.
Defined.

Lemma patterns_loop_inv fuel b d p levels : ∀ ret ps,
  patterns_loop fuel b d p levels ret = Ok ps →
  ∃ scrs,
    Forall2 (fun r scr => pattern_level fuel b d p r = Ok scr) levels scrs
    ∧ ps = ret ++ concat scrs.
Proof.
  induction levels as [|r levels IH]; intros ret ps H; cbn in H.
  - simplify_eq. exists []. split; [constructor|]. by rewrite app_nil_r.
  - destruct (pattern_level fuel b d p r) as [scr| |] eqn:Hr; [|done..].
    cbn [bind] in H. apply IH in H as (scrs & HF & ->).
    exists (scr :: scrs). split; [by constructor|]. cbn.
    by rewrite app_assoc.
Qed.

(** Whatever fuel it ran with, a pattern [make_patterns] returned on a
    well-formed board lies on the board. *)
Lemma make_patterns_on_board b p d mt fuel ps :
  wf_board b → make_patterns fuel b p d mt = Ok ps →
  Forall (fun w => on_board b (tiles w)) ps.
Proof.
  intros Hwf H. unfold make_patterns in H.
  destruct (contains b p) eqn:Hc; [|done].
  destruct (occupied b p) eqn:Ho; [|done]. cbn [negb] in H.
  apply patterns_loop_inv in H as (scrs & HF & ->). cbn [app].
  apply Forall_concat, Forall_lookup. intros i scr Hscr.
  destruct (Forall2_lookup_r _ _ _ _ _ HF Hscr) as (r & _ & Hlv).
  unfold pattern_level in Hlv.
  destruct (board_at b p) as [anchor|] eqn:Hat; [|done].
  destruct (make_pattern_rec fuel b d r [anchor] ([], ∅)) as [st| |] eqn:Hst;
    [|done..].
  cbn in Hlv. simplify_eq.
  apply board_at_Some in Hat. destruct (Hwf _ _ Hat) as (t & [= <-] & Hp & _).
  revert Hst. apply (make_pattern_rec_invariant b d
    (fun _ cur => on_board b cur)
    (fun st => Forall (fun w => on_board b (tiles w)) st.1)).
  - intros rem cur first t HI _ Ht. constructor; [|done].
    destruct (Hwf _ _ Ht) as (t' & [= <-] & Hq & Hct). by rewrite Hq.
  - intros rem cur lst t HI _ Ht. apply Forall_app. split; [done|].
    constructor; [|done].
    destruct (Hwf _ _ Ht) as (t' & [= <-] & Hq & Hct). by rewrite Hq.
  - intros rem cur first HI _ _ Hcl _. by constructor.
  - intros rem cur lst HI _ _ Hcl _. apply Forall_app. split; [done|].
    by constructor.
  - done.
  - intros ret vis cur w HQ HI _ _ _ HW. cbn [fst]. apply Forall_app.
    split; [done|]. constructor; [|done].
    by apply Word_init_Ok in HW as (d' & -> & _).
  - constructor; [|done]. by rewrite Hp.
  - by cbn.
Qed.

Lemma on_board_positions b l1 l2 :
  pos <$> l1 = pos <$> l2 → on_board b l2 → on_board b l1.
Proof.
  unfold on_board. intros Hp H.
  apply (Forall_fmap pos (fun q => contains b q = true)).
  rewrite Hp. by apply Forall_fmap.
Qed.

Lemma elem_of_concat {A} (x : A) (ls : list (list A)) :
  x ∈ concat ls ↔ ∃ l, x ∈ l ∧ l ∈ ls.
Proof.
  induction ls as [|l ls IH]; cbn.
  - split; [by intros ?%elem_of_nil|]. by intros (l & _ & ?%elem_of_nil).
  - rewrite elem_of_app, IH. split.
    + intros [?|(l' & ? & ?)]; [exists l|exists l']; split; try done;
        by constructor.
    + intros (l' & Hx & Hl). apply elem_of_cons in Hl as [->|Hl]; eauto.
Qed.

(** Every word [get_best_words] returns was found from an anchor, as a
    candidate for a pattern of that anchor. *)
Lemma get_best_words_sound fm wh sc fuel b gutter l w :
  get_best_words fm wh sc fuel b gutter = Ok l → w ∈ l →
  ∃ p d patterns pat,
    p ∈ anchors b
    ∧ make_patterns fuel b p d (Z.of_nat (String.length gutter)) = Ok patterns
    ∧ pat ∈ patterns
    ∧ candidate fm wh fuel b gutter pat w
    ∧ pos <$> tiles w = pos <$> tiles pat.
Proof.
  intros Hg Hw. apply get_best_words_spec in Hg as (found & HF & ->).
  rewrite sorted_by_perm in Hw. apply elem_of_concat in Hw as (ws & Hw & Hws).
  apply list_elem_of_lookup in Hws as [i Hi].
  destruct (Forall2_lookup_r _ _ _ _ _ HF Hi) as (p & Hp & wa & wd & Ha & Hd & ->).
  apply list_elem_of_lookup_2 in Hp.
  assert (∃ d ws', words_for_pos fm wh fuel b p d gutter = Ok ws' ∧ w ∈ ws')
    as (d & ws' & Hwp & Hw').
  { apply elem_of_app in Hw as [?|?]; eauto. }
  unfold words_for_pos in Hwp.
  destruct (make_patterns fuel b p d (Z.of_nat (String.length gutter)))
    as [patterns| |] eqn:Hmk; [|done..].
  cbn [bind] in Hwp.
  apply (fit_loop_candidates _ _ _ _ _ patterns) in Hwp as (new & -> & Hnew);
    [|done].
  cbn [app] in Hw'. rewrite Forall_forall in Hnew.
  destruct (Hnew w Hw') as (pat & ? & ? & ?).
  by exists p, d, patterns, pat.
Qed.

(** X21: Every word in the ranking of [get_best_words] was found from an anchor:
    it is a candidate for one of the patterns [make_patterns] gives for the
    anchor, a direction and the rack size, it lies on the positions of that
    pattern, and on a well-formed board these are on the board and never
    repeat. *)
Theorem get_best_words_candidates
    (find_matches : option string → string → result (list string))
    (wordlist_has : string → result bool) (score_word : Word → Z)
    (fuel : nat) (b : BoardState) (gutter : string) (l : list Word) :
  get_best_words find_matches wordlist_has score_word fuel b gutter = Ok l →
  Forall (fun w =>
    ∃ p d patterns pat,
      p ∈ anchors b
      ∧ make_patterns fuel b p d (Z.of_nat (String.length gutter))
        = Ok patterns
      ∧ pat ∈ patterns
      ∧ candidate find_matches wordlist_has fuel b gutter pat w
      ∧ pos <$> tiles w = pos <$> tiles pat
      ∧ NoDup (pos <$> tiles w)
      ∧ (wf_board b → on_board b (tiles w))) l.
Proof.
  intros Hg. apply Forall_forall. intros w Hw.
  destruct (get_best_words_sound _ _ _ _ _ _ _ _ Hg Hw)
    as (p & d & patterns & pat & Hp & Hmk & Hpat & Hc & Hpos).
  exists p, d, patterns, pat. repeat split; try done.
  - destruct Hc as (_ & _ & _ & _ & _ & _ & HW & _).
    apply Word_init_Ok in HW as (d' & _ & _ & Hs). by eapply steps_NoDup.
  - intros Hwf. eapply on_board_positions; [done|].
    pose proof (make_patterns_on_board _ _ _ _ _ _ Hwf Hmk) as Hon.
    rewrite Forall_forall in Hon. by apply Hon.
Qed.

Lemma get_best_words_candidates_witness :
  let matcher := fun (pat : option string) (_ : string) =>
    Ok (if decide (pat = Some "corner_") then ["corners"] else []) in
  let lexicon := fun _ : string => Ok true in
  Forall (fun w =>
    ∃ p d patterns pat,
      p ∈ anchors example_board
      ∧ make_patterns (enough example_board) example_board p d
          (Z.of_nat (String.length "sx")) = Ok patterns
      ∧ pat ∈ patterns
      ∧ candidate matcher lexicon (enough example_board) example_board "sx"
          pat w
      ∧ pos <$> tiles w = pos <$> tiles pat
      ∧ NoDup (pos <$> tiles w)
      ∧ (wf_board example_board → on_board example_board (tiles w)))
    (replicate 6 (mkWord (make_word_tiles "corners" (0, 0) DOWN) (Some DOWN))).
Proof.
  apply (get_best_words_candidates
    (fun (pat : option string) (_ : string) =>
       Ok (if decide (pat = Some "corner_") then ["corners"] else []))
    (fun _ : string => Ok true)
    (fun w : Word => Z.of_nat (length (tiles w)))
    (enough example_board) example_board "sx").
  vm_compute. reflexivity.
Defined.

Lemma put_word_fresh ts : ∀ b,
  NoDup (pos <$> ts) → on_board b ts →
  Forall (fun t => board b !! pos t = None) ts →
  ∃ b', put_word b ts = (b', Ok tt)
    ∧ Forall (fun t => board b' !! pos t = Some (Some t)) ts.
Proof.
  induction ts as [|t ts IH]; intros b Hnd Hon Hnone.
  - exists b. by split.
  - rewrite fmap_cons in Hnd. apply NoDup_cons in Hnd as [Hnin Hnd].
    apply Forall_cons in Hon as [Hc Hon].
    apply Forall_cons in Hnone as [Hn Hnone].
    cbn [put_word]. rewrite Hn. unfold manually_put_tile. rewrite Hc.
    destruct (IH (set_board b (<[pos t:=Some t]> (board b)))) as (b' & Hp & Hw).
    + done.
    + done.
    + rewrite Forall_forall in Hnone. apply Forall_forall. intros u Hu. cbn.
      rewrite lookup_insert_ne; [by apply Hnone|].
      intros Heq. apply Hnin. rewrite Heq. by apply list_elem_of_fmap_2.
    + exists b'. split; [done|]. constructor; [|done].
      eapply put_word_mono; [done|]. cbn. apply lookup_insert_eq.
Qed.

Lemma filter_none {A} (P : A → Prop) `{∀ x, Decision (P x)} (l : list A) :
  Forall (fun x => ¬ P x) l → filter P l = [].
Proof.
  induction 1 as [|x l Hx _ IH]; [done|]. by rewrite filter_cons_False.
Qed.

(** X22: Accepting the suggestion.  On a well-formed board, when
    [getNextBestWord] searches (nothing is cached) and suggests tiles,
    [acceptWord] on them returns normally: each suggested tile is then on
    the board, which stays well-formed.  The cached ranking is kept, so
    until [boardWasModified] is called the next [getNextBestWord] suggests
    the empty list. *)
Theorem accept_next_best_word
    (find_matches : option string → string → result (list string))
    (wordlist_has : string → result bool) (score_word : Word → Z)
    (fuel : nat) (b : BoardState) (hd : gmap Z string) (gutter : string)
    (dg1 : Delegate) (ts : list BoardTile) :
  wf_board b →
  getNextBestWord find_matches wordlist_has score_word fuel
    (mkDelegate b None hd) gutter = (dg1, Ok (Some ts)) →
  ∃ dg2,
    acceptWord dg1 (Some ts) = (dg2, Ok tt)
    ∧ Forall (fun t => board (board_state dg2) !! pos t = Some (Some t)) ts
    ∧ wf_board (board_state dg2)
    ∧ best_words dg2 = best_words dg1
    ∧ getNextBestWord find_matches wordlist_has score_word fuel dg2 gutter
      = (dg2, Ok (Some []))
    ∧ best_words (boardWasModified dg2) = None.
Proof.
  intros Hwf H. unfold getNextBestWord in H. cbn [best_words board_state hand] in H.
  destruct (get_best_words find_matches wordlist_has score_word fuel b gutter)
    as [l| |] eqn:Hg; [|done..].
  destruct (last l) as [best|] eqn:Hlast; [|done]. simplify_eq.
  set (ts := filter (fun i => occupied b (pos i) = false) (tiles best)).
  pose proof (last_Some_elem_of _ _ Hlast) as Hbest.
  destruct (get_best_words_sound _ _ _ _ _ _ _ _ Hg Hbest)
    as (p & d & patterns & pat & Hp & Hmk & Hpat & Hc & Hpos).
  assert (on_board b (tiles best)) as Hon.
  { eapply on_board_positions; [done|].
    pose proof (make_patterns_on_board _ _ _ _ _ _ Hwf Hmk) as Hon.
    rewrite Forall_forall in Hon. by apply Hon. }
  assert (NoDup (pos <$> tiles best)) as Hnd.
  { destruct Hc as (_ & _ & _ & _ & _ & _ & HW & _).
    apply Word_init_Ok in HW as (d' & _ & _ & Hs). by eapply steps_NoDup. }
  destruct (put_word_fresh ts b) as (b' & Hput & Hw).
  { apply (sublist_NoDup (pos <$> ts) (pos <$> tiles best)); [exact Hnd|].
    apply fmap_sublist, sublist_filter. }
  { unfold on_board in *. rewrite Forall_forall in Hon. apply Forall_forall.
    intros t Ht. apply list_elem_of_filter in Ht as [_ Ht]. by apply Hon. }
  { apply Forall_forall. intros t Ht. apply list_elem_of_filter in Ht as [Ht _].
    by apply occupied_false. }
  assert (wf_board b') as Hwf' by by eapply put_word_wf.
  assert (Hcache : ∀ dg, board_state dg = b' → best_words dg = Some l →
            getNextBestWord find_matches wordlist_has score_word fuel dg gutter
            = (dg, Ok (Some []))).
  { intros [bs bw h] Hbs Hbw. cbn in Hbs, Hbw. subst bs bw.
    unfold getNextBestWord. cbn [best_words board_state hand]. rewrite Hlast.
    rewrite filter_none; [done|]. apply Forall_forall. intros t Ht Hocc.
    apply occupied_false in Hocc.
    destruct (occupied b (pos t)) eqn:Ho.
    - apply occupied_true in Ho as [v Hv].
      eapply put_word_mono in Hv; [|done]. congruence.
    - rewrite Forall_forall in Hw. rewrite (Hw t) in Hocc; [done|].
      by apply list_elem_of_filter. }
  unfold acceptWord. cbn [board_state best_words hand].
  destruct ts as [|t0 ts0] eqn:Hts.
  - eexists. split; [done|]. cbn [board_state best_words]. repeat split; try done.
    cbn in Hput. simplify_eq. by apply Hcache.
  - rewrite Hput. eexists. split; [done|]. cbn [board_state best_words].
    repeat split; try done. by apply Hcache.
Qed.

Lemma accept_next_best_word_witness :
  let matcher := fun (pat : option string) (_ : string) =>
    Ok (if decide (pat = Some "corner_") then ["corners"] else []) in
  let lexicon := fun _ : string => Ok true in
  let score := fun w : Word => Z.of_nat (length (tiles w)) in
  let dg1 :=
    mkDelegate example_board
      (Some (replicate 6
               (mkWord (make_word_tiles "corners" (0, 0) DOWN) (Some DOWN))))
      ∅ in
  ∃ dg2,
    acceptWord dg1 (Some [mkTile (0, 6) "s"]) = (dg2, Ok tt)
    ∧ Forall (fun t => board (board_state dg2) !! pos t = Some (Some t))
        [mkTile (0, 6) "s"]
    ∧ wf_board (board_state dg2)
    ∧ best_words dg2 = best_words dg1
    ∧ getNextBestWord matcher lexicon score (enough example_board) dg2 "sx"
      = (dg2, Ok (Some []))
    ∧ best_words (boardWasModified dg2) = None.
Proof.
  apply (accept_next_best_word
    (fun (pat : option string) (_ : string) =>
       Ok (if decide (pat = Some "corner_") then ["corners"] else []))
    (fun _ : string => Ok true)
    (fun w : Word => Z.of_nat (length (tiles w)))
    (enough example_board) example_board ∅ "sx").
  - apply example_board_wf.
  - vm_compute. reflexivity.
Defined.

(** ** Word lists *)

Lemma lower_ascii_idem c : lower_ascii (lower_ascii c) = lower_ascii c.
Proof. by destruct c as [[] [] [] [] [] [] [] []]. Qed.

Lemma lower_idem s : lower (lower s) = lower s.
Proof.
  induction s as [|c s IH]; [done|]. cbn. by rewrite lower_ascii_idem, IH.
Qed.

Lemma elem_of_loaded (lines : list string) : ∀ (s : gset string) x,
  x ∈ foldl (fun s line => {[ remove_newlines line ]} ∪ s) s lines
  ↔ x ∈ s ∨ ∃ line, line ∈ lines ∧ remove_newlines line = x.
Proof.
  induction lines as [|l lines IH]; intros s x; cbn.
  - split; [auto|]. intros [?|(line & ?%elem_of_nil & _)]; done.
  - rewrite IH, elem_of_union, elem_of_singleton. split.
    + intros [[->|?]|(line & ? & ?)]; [right; exists l|auto|right; exists line];
        split; try done; by constructor.
    + intros [?|(line & Hl & Hx)]; [auto|].
      apply elem_of_cons in Hl as [->|?]; [auto|]. right. eauto.
Qed.

(** X23: [contains] on a freshly read list: a query is found exactly when some
    line of the file, newlines removed, equals the query in lower case.  The
    lines themselves are not lower-cased, so a line holding an upper-case
    letter is found by no query. *)
Theorem wl_contains_loaded (lines : list string) (q : string) :
  (wl_contains (WordList_init lines) q = true
   ↔ ∃ line, line ∈ lines ∧ remove_newlines line = lower q)
  ∧ (∀ line, lower (remove_newlines line) ≠ remove_newlines line →
       remove_newlines line ≠ lower q)
  ∧ wl_contains (WordList_init lines) (lower q)
    = wl_contains (WordList_init lines) q.
Proof.
  unfold wl_contains, WordList_init. cbn [wordlist]. split; [|split].
  - rewrite bool_decide_eq_true, elem_of_loaded. split; [|by right].
    intros [H|H]; [by apply not_elem_of_empty in H|done].
  - intros line Hne Heq. apply Hne. by rewrite Heq, lower_idem.
  - by rewrite lower_idem.
Qed.

(** X24: [add_word] never returns normally while the write-back is unregistered,
    and it never registers it: it raises [AttributeError] on [self.func].
    The word has been added by then: [contains] finds it, and the answers
    for other words are as before. *)
Theorem add_word_outcome (wl : WordList) (word : string) :
  did_register_writeback wl = false →
  ∃ wl', add_word wl word = (wl', Some (WAttributeError "func"))
    ∧ did_register_writeback wl' = false
    ∧ wl_contains wl' word = true
    ∧ ∀ q, lower q ≠ lower word → wl_contains wl' q = wl_contains wl q.
Proof.
  intros Hflag. unfold add_word, register_writeback. cbn. rewrite Hflag.
  eexists. split; [done|]. cbn. split; [done|]. unfold wl_contains. cbn.
  split.
  - apply bool_decide_eq_true, elem_of_union_l. by apply elem_of_singleton.
  - intros q Hq. apply bool_decide_ext.
    rewrite elem_of_union, elem_of_singleton. tauto.
Qed.

Lemma add_word_outcome_witness :
  ∃ wl', add_word (WordList_init ["cat"; "Dog"]) "Emu"
         = (wl', Some (WAttributeError "func"))
    ∧ did_register_writeback wl' = false
    ∧ wl_contains wl' "Emu" = true
    ∧ ∀ q, lower q ≠ lower "Emu" →
        wl_contains wl' q = wl_contains (WordList_init ["cat"; "Dog"]) q.
Proof.
  apply (add_word_outcome (WordList_init ["cat"; "Dog"]) "Emu").
  reflexivity.
Defined.

(** X25: [remove_word]: a word that is not in the list raises [KeyError] and
    leaves the list as it was; a word that is in it is removed, after which
    the call raises [AttributeError] like [add_word].  Removing a word that
    [add_word] has just added to a list that did not hold it gives the list
    back. *)
Theorem remove_word_outcome (wl : WordList) (word : string) :
  did_register_writeback wl = false →
  (wl_contains wl word = false →
   remove_word wl word = (wl, Some (WKeyError (lower word)))
   ∧ remove_word (add_word wl word).1 word
     = (wl, Some (WAttributeError "func")))
  ∧ (wl_contains wl word = true →
     ∃ wl', remove_word wl word = (wl', Some (WAttributeError "func"))
       ∧ wl_contains wl' word = false
       ∧ ∀ q, lower q ≠ lower word → wl_contains wl' q = wl_contains wl q).
Proof.
  intros Hflag. unfold remove_word, add_word, register_writeback, wl_contains.
  destruct wl as [s flag]. cbn in *. subst flag. split; intros Hc.
  - rewrite Hc. split; [done|]. apply bool_decide_eq_false in Hc.
    cbn [fst wordlist did_register_writeback].
    rewrite bool_decide_eq_true_2
      by (apply elem_of_union_l; by apply elem_of_singleton).
    f_equal. f_equal. apply set_eq. intros y. cbn [fst wordlist].
    rewrite elem_of_difference, elem_of_union, elem_of_singleton.
    split; [tauto|]. intros Hy. split; [auto|]. by intros ->.
  - rewrite Hc. eexists. split; [done|]. cbn. split.
    + apply bool_decide_eq_false.
      rewrite elem_of_difference, elem_of_singleton. tauto.
    + intros q Hq. apply bool_decide_ext.
      rewrite elem_of_difference, elem_of_singleton. tauto.
Qed.

Lemma remove_word_outcome_witness :
  remove_word (WordList_init ["cat"]) "Dog"
  = (WordList_init ["cat"], Some (WKeyError (lower "Dog")))
  ∧ remove_word (add_word (WordList_init ["cat"]) "Dog").1 "Dog"
    = (WordList_init ["cat"], Some (WAttributeError "func")).
Proof.
  apply (proj1 (remove_word_outcome (WordList_init ["cat"]) "Dog" eq_refl)).
  reflexivity.
Defined.

(** X26: [get_wordlist] reads a file once: after a call that returned, a second
    call for the same name returns the cache as it is, with the same object
    under the name, whatever the files hold by then; and a call never
    changes the object of another name. *)
Theorem get_wordlist_cached (files files' : string → option (list string))
    (cache : gmap string WordList) (name : string) :
  (get_wordlist files cache name).2 = None →
  is_Some ((get_wordlist files cache name).1 !! name)
  ∧ get_wordlist files' (get_wordlist files cache name).1 name
    = ((get_wordlist files cache name).1, None)
  ∧ ∀ other, other ≠ name →
      (get_wordlist files cache name).1 !! other = cache !! other.
Proof.
  unfold get_wordlist. destruct (cache !! name) as [wl|] eqn:Hc; cbn.
  - intros _. rewrite Hc. eauto.
  - destruct (files name) as [lines|]; cbn; [|done]. intros _.
    rewrite lookup_insert_eq. split; [eauto|]. split; [done|].
    intros other Ho. by rewrite lookup_insert_ne.
Qed.

Lemma get_wordlist_cached_witness :
  let files := fun _ : string => Some ["cat"] in
  let files' := fun _ : string => @None (list string) in
  is_Some ((get_wordlist files ∅ "ntlworld.wordlist.txt").1
             !! "ntlworld.wordlist.txt")
  ∧ get_wordlist files' (get_wordlist files ∅ "ntlworld.wordlist.txt").1
      "ntlworld.wordlist.txt"
    = ((get_wordlist files ∅ "ntlworld.wordlist.txt").1, None)
  ∧ ∀ other, other ≠ "ntlworld.wordlist.txt" →
      (get_wordlist files ∅ "ntlworld.wordlist.txt").1 !! other
      = (∅ : gmap string WordList) !! other.
Proof.
  apply (get_wordlist_cached (fun _ : string => Some ["cat"]) (fun _ : string => None) ∅ "ntlworld.wordlist.txt").
  reflexivity.
Defined.

(** ** Patterns of tile lists and clearing cells *)

(** X27: [TileList.get_pattern] returns [None] exactly when every letter is the
    empty string (in particular for the empty list); otherwise it returns
    the joined letters. *)
Theorem get_pattern_outcome (l : list BoardTile) :
  (get_pattern l = None ↔ Forall (fun t => letter t = EmptyString) l)
  ∧ (get_pattern l ≠ None → get_pattern l = Some (join (letters l)))
  ∧ (Forall (fun t => letter t = EmptyString) l →
     join (letters l) = EmptyString).
Proof.
  assert (Forall (fun t => letter t = EmptyString) l →
          join (letters l) = EmptyString) as Hjoin.
  { induction 1 as [|t l' Ht _ IH]; [done|].
    change (letters (t :: l')) with (letter t :: letters l').
    rewrite join_cons, Ht. exact IH. }
  unfold get_pattern.
  destruct (existsb (fun t => negb (bool_decide (letter t = EmptyString))) l)
    eqn:He.
  - split; [|split; [done|done]].
    split; [done|]. intros HF. exfalso.
    apply existsb_exists in He as (t & Ht & Hn).
    rewrite Forall_forall in HF. rewrite <- list_elem_of_In in Ht.
    apply negb_true_iff, bool_decide_eq_false in Hn. by apply Hn, HF.
  - split; [|split; [done|done]].
    split; [|done]. intros _. apply Forall_forall. intros t Ht.
    rewrite list_elem_of_In in Ht.
    destruct (decide (letter t = EmptyString)) as [|Hne]; [done|].
    assert (existsb (fun t => negb (bool_decide (letter t = EmptyString))) l
            = true) as Hex; [|congruence].
    apply existsb_exists. exists t. split; [done|].
    by apply negb_true_iff, bool_decide_eq_false.
Qed.

(** X28: How [tileWasCleared] ends.  Whatever the cell held, the board no longer
    holds the key and nothing else on it changes (the [KeyError] of an empty
    cell is swallowed).  Outside row 15 the call returns and the hand is
    untouched; in row 15 it removes the hand slot of that column, and raises
    [KeyError] with the column as its key, the board already changed, when
    the slot is empty. *)
Theorem tileWasCleared_outcome (dg : Delegate) (p : Position) :
  board (board_state (tileWasCleared dg p).1)
  = delete p (board (board_state dg))
  ∧ height (board_state (tileWasCleared dg p).1) = height (board_state dg)
  ∧ width (board_state (tileWasCleared dg p).1) = width (board_state dg)
  ∧ best_words (tileWasCleared dg p).1 = best_words dg
  ∧ (p.2 ≠ 15 →
     (tileWasCleared dg p).2 = Ok tt ∧ hand (tileWasCleared dg p).1 = hand dg)
  ∧ (p.2 = 15 → is_Some (hand dg !! p.1) →
     (tileWasCleared dg p).2 = Ok tt
     ∧ hand (tileWasCleared dg p).1 = delete p.1 (hand dg))
  ∧ (p.2 = 15 → hand dg !! p.1 = None →
     (tileWasCleared dg p).2 = Raise (KeyErrorInt p.1)
     ∧ hand (tileWasCleared dg p).1 = hand dg).
Proof.
  unfold tileWasCleared, manually_delete_tile.
  destruct dg as [[h w m] bw hd]. cbn [board_state best_words hand board].
  destruct (m !! p) as [v|] eqn:Hm; cbn [set_board height width board].
  - case_bool_decide as H15.
    + destruct (hd !! p.1) as [x|] eqn:Hh; cbn;
        repeat split; try done; try by intros [? ?].
    + cbn. repeat split; done.
  - rewrite (delete_id m p Hm). case_bool_decide as H15.
    + destruct (hd !! p.1) as [x|] eqn:Hh; cbn;
        repeat split; try done; try by intros [? ?].
    + cbn. repeat split; done.
Qed.
